(** * Letter Match Fun: round generation and session controller

    A shallow embedding of [src/App.tsx]: the round generator
    ([shuffleArray], [generateRound]) and the session controller of the
    [App] component ([startNewRound], [handleSelectDifficulty],
    [handleBackToMenu], [handleLetterClick], [starsToShow]), together with
    the timers the controller schedules. *)

From Stdlib Require Import ZArith Ascii String.
From stdpp Require Import base decidable option list sets gmap strings.

#[local] Set Warnings "-clear-no-such-hyp".

Local Open Scope string_scope.
Local Open Scope list_scope.
Local Open Scope nat_scope.

(** ** Letters and concepts *)

Module Letters.

(** [String.prototype.toUpperCase] and [toLowerCase], on strings of ASCII
    characters: the letters a-z and A-Z are mapped, every other character is
    kept. (Case mapping of characters above code 127 is not modelled; the game
    only ever builds its letters from the two alphabets below.) *)
Definition upperAscii (c : ascii) : ascii :=
  let n := nat_of_ascii c in
  if (97 <=? n)%nat && (n <=? 122)%nat then ascii_of_nat (n - 32) else c.

Definition lowerAscii (c : ascii) : ascii :=
  let n := nat_of_ascii c in
  if (65 <=? n)%nat && (n <=? 90)%nat then ascii_of_nat (n + 32) else c.

Fixpoint toUpperCase (s : string) : string :=
  match s with
  | EmptyString => EmptyString
  | String c rest => String (upperAscii c) (toUpperCase rest)
  end.

Fixpoint toLowerCase (s : string) : string :=
  match s with
  | EmptyString => EmptyString
  | String c rest => String (lowerAscii c) (toLowerCase rest)
  end.

(** ['...'.split('')]: the one-character strings of a string, in order. *)
Fixpoint split (s : string) : list string :=
  match s with
  | EmptyString => []
  | String c rest => String c EmptyString :: split rest
  end.

Definition ALPHABET_UPPER : list string := split "ABCDEFGHIJKLMNOPQRSTUVWXYZ".
Definition ALPHABET_LOWER : list string := split "abcdefghijklmnopqrstuvwxyz".

End Letters.
Export Letters.

(** ** Randomness

    [Math.random()] is used in two ways only: [Math.floor(Math.random() * n)],
    which is some integer of [0, n), and [Math.random() > 0.5], which is some
    boolean. The floating-point value itself is not modelled: a run of the
    program is given by the sequence of raw draws it receives, and every
    theorem about [generateRound] quantifies over all such sequences. *)

Module Random.

Definition Rng : Type := nat → nat.

Definition Rand (A : Type) : Type := Rng → A * Rng.

#[export] Instance rand_ret : MRet Rand := λ A (x : A) g, (x, g).
#[export] Instance rand_bind : MBind Rand := λ A B (f : A → Rand B) (m : Rand A) g,
  let '(x, g') := m g in f x g'.

(** One call of [Math.random()]. *)
Definition draw : Rand nat := λ g, (g 0, λ k, g (S k)).

(** [Math.floor(Math.random() * n)]. *)
Definition randomBelow (n : nat) : Rand nat :=
  x ← draw; mret (match n with 0 => 0 | S _ => x `mod` n end).

(** [Math.random() > 0.5]. *)
Definition randomAboveHalf : Rand bool :=
  x ← draw; mret (Nat.odd x).

End Random.
Export Random.

(** ** Round generation *)

Module Generator.

Inductive Difficulty := easy | medium | hard.

(** [lettersPerCircle] only occurs as [lettersPerCircle - 1] on the right of
    [size < ...]; the truncated subtraction of [nat] gives the same tests as
    the JavaScript number (for 0 both sides refuse every filler). *)
Record Settings := { lettersPerCircle : nat; useLowercase : bool }.

Definition DIFFICULTY_SETTINGS (d : Difficulty) : Settings :=
  match d with
  | easy => {| lettersPerCircle := 4; useLowercase := false |}
  | medium => {| lettersPerCircle := 6; useLowercase := false |}
  | hard => {| lettersPerCircle := 8; useLowercase := true |}
  end.

Record RoundData := {
  letters1 : list string;
  letters2 : list string;
  matchingLetter : string
}.

(** [[array[i], array[j]] = [array[j], array[i]]]. Both indices are read
    before either is written. The loop of [shuffleArray] only ever swaps
    inside the array (lemmas [shuffleFrom_in_range] and [swap_in_range]);
    outside it the model leaves the list alone. *)
Definition swap {T} (array : list T) (i j : nat) : list T :=
  match array !! i, array !! j with
  | Some x, Some y => <[j:=x]> (<[i:=y]> array)
  | _, _ => array
  end.

(** The loop [for (let i = ...; i > 0; i--)] of [shuffleArray], entered
    with the current value of [i]. *)
Fixpoint shuffleFrom {T} (i : nat) (array : list T) : Rand (list T) :=
  match i with
  | 0 => mret array
  | S i' =>
      j ← randomBelow (i + 1);
      shuffleFrom i' (swap array i j)
  end.

Definition shuffleArray {T} (array : list T) : Rand (list T) :=
  shuffleFrom (length array - 1) array.

(** The loop [for (const letter of shuffledFullPool)]: [fillerPool] and
    [usedConcepts] are the two accumulators it mutates. *)
Fixpoint collectFillers (letters : list string) (fillerPool : list string)
    (usedConcepts : gset string) : list string :=
  match letters with
  | [] => fillerPool
  | letter :: rest =>
      let concept := toUpperCase letter in
      if decide (concept ∈ usedConcepts)
      then collectFillers rest fillerPool usedConcepts
      else collectFillers rest (fillerPool ++ [letter]) ({[concept]} ∪ usedConcepts)
  end.

(** A JavaScript [Set<string>] that is later read with [Array.from]: its
    members in insertion order; [add] of a member changes nothing. *)
Definition JSSet : Type := list string.

Definition jsAdd (x : string) (s : JSSet) : JSSet :=
  if decide (x ∈ s) then s else s ++ [x].

(** [while (letters.size < limit && fillerIndex < fillerPool.length)
       letters.add(fillerPool[fillerIndex++])].
    [rest] is the part of [fillerPool] from [fillerIndex] on, so that the
    loop stops on [[]] exactly when [fillerIndex] reaches the length; the
    set and the advanced index are returned. *)
Fixpoint fillCircle (limit : nat) (rest : list string) (letters : JSSet)
    (fillerIndex : nat) : JSSet * nat :=
  match rest with
  | [] => (letters, fillerIndex)
  | x :: rest' =>
      if (length letters <? limit)%nat
      then fillCircle limit rest' (jsAdd x letters) (S fillerIndex)
      else (letters, fillerIndex)
  end.

(** The closure [getMatchingLetterWithCase]. *)
Definition getMatchingLetterWithCase (settings : Settings)
    (matchingLetterConcept : string) : Rand string :=
  if useLowercase settings
  then b ← randomAboveHalf;
       mret (if b : bool then toUpperCase matchingLetterConcept
             else toLowerCase matchingLetterConcept)
  else mret matchingLetterConcept.

(** Steps 1 to 3 of [generateRound] (lines 29-59): the concept and the two
    sets of fillers. [ALPHABET_UPPER[k]] is read with a default that is never
    used, as [k] is below the length. *)
Definition chooseFillers (settings : Settings) : Rand (string * JSSet * JSSet) :=
  let fullLetterPool :=
    if useLowercase settings then ALPHABET_UPPER ++ ALPHABET_LOWER
    else ALPHABET_UPPER in
  k ← randomBelow (length ALPHABET_UPPER);
  let matchingLetterConcept := nth k ALPHABET_UPPER EmptyString in
  shuffledFullPool ← shuffleArray fullLetterPool;
  let fillerPool := collectFillers shuffledFullPool [] {[matchingLetterConcept]} in
  let '(lettersForCircle1, fillerIndex) :=
    fillCircle (lettersPerCircle settings - 1) fillerPool [] 0 in
  let '(lettersForCircle2, _) :=
    fillCircle (lettersPerCircle settings - 1) (drop fillerIndex fillerPool) []
      fillerIndex in
  mret (matchingLetterConcept, lettersForCircle1, lettersForCircle2).

(** [generateRound] for the settings record it looks up on its first line.
    In [shuffleArray([...fillers, getMatchingLetterWithCase()])] the array
    is built, and the case drawn, before the shuffle runs. *)
Definition generateRoundWith (settings : Settings) : Rand RoundData :=
  '(matchingLetterConcept, lettersForCircle1, lettersForCircle2) ← chooseFillers settings;
  m1 ← getMatchingLetterWithCase settings matchingLetterConcept;
  letters1 ← shuffleArray (lettersForCircle1 ++ [m1]);
  m2 ← getMatchingLetterWithCase settings matchingLetterConcept;
  letters2 ← shuffleArray (lettersForCircle2 ++ [m2]);
  mret {| letters1 := letters1; letters2 := letters2;
          matchingLetter := matchingLetterConcept |}.

Definition generateRound (difficulty : Difficulty) : Rand RoundData :=
  generateRoundWith (DIFFICULTY_SETTINGS difficulty).

End Generator.
Export Generator.

(** ** Session controller

    The state of the [App] component and its handlers. A handler runs on the
    state of the render it was created in; React commits the updates of one
    click or one timer callback before the next one runs, so a handler is a
    function from the committed session to the next one, together with the
    timers it schedules. A timer callback keeps the variables of the render
    that created it: that is the argument of [StartNewRound] and [SetRound]. *)

Module Controller.

Inductive Feedback := idle | correct.

Record Session := {
  difficulty : option Difficulty;
  roundData : option RoundData;
  score : nat;
  feedback : Feedback;
  wrongGuess : bool;
  wrongGuessesInRound : nat
}.

(** The six [useState] initial values. *)
Definition initialSession : Session :=
  {| difficulty := None; roundData := None; score := 0; feedback := idle;
     wrongGuess := false; wrongGuessesInRound := 0 |}.

Definition setDifficulty (v : option Difficulty) (s : Session) : Session :=
  {| difficulty := v; roundData := roundData s; score := score s;
     feedback := feedback s; wrongGuess := wrongGuess s;
     wrongGuessesInRound := wrongGuessesInRound s |}.

Definition setRoundData (v : option RoundData) (s : Session) : Session :=
  {| difficulty := difficulty s; roundData := v; score := score s;
     feedback := feedback s; wrongGuess := wrongGuess s;
     wrongGuessesInRound := wrongGuessesInRound s |}.

Definition setScore (v : nat) (s : Session) : Session :=
  {| difficulty := difficulty s; roundData := roundData s; score := v;
     feedback := feedback s; wrongGuess := wrongGuess s;
     wrongGuessesInRound := wrongGuessesInRound s |}.

Definition setFeedback (v : Feedback) (s : Session) : Session :=
  {| difficulty := difficulty s; roundData := roundData s; score := score s;
     feedback := v; wrongGuess := wrongGuess s;
     wrongGuessesInRound := wrongGuessesInRound s |}.

Definition setWrongGuess (v : bool) (s : Session) : Session :=
  {| difficulty := difficulty s; roundData := roundData s; score := score s;
     feedback := feedback s; wrongGuess := v;
     wrongGuessesInRound := wrongGuessesInRound s |}.

Definition setWrongGuessesInRound (v : nat) (s : Session) : Session :=
  {| difficulty := difficulty s; roundData := roundData s; score := score s;
     feedback := feedback s; wrongGuess := wrongGuess s;
     wrongGuessesInRound := v |}.

(** The three callbacks handed to [setTimeout]. *)
Inductive Timer :=
  | SetRound (level : Difficulty)
      (* () => setRoundData(generateRound(level)), lines 110 and 122 *)
  | StartNewRound (captured : option Difficulty)
      (* () => startNewRound(), line 141: [captured] is the [difficulty] of
         the render whose [startNewRound] the click handler closed over *)
  | ClearWrongGuess.
      (* () => setWrongGuess(false), line 148 *)

Definition delay (tm : Timer) : nat :=
  match tm with
  | SetRound _ => 100
  | StartNewRound _ => 1200
  | ClearWrongGuess => 500
  end.

(** [startNewRound], with the [difficulty] its closure holds. *)
Definition startNewRound (difficulty : option Difficulty) (s : Session)
    : Session * list Timer :=
  match difficulty with
  | None => (s, [])
  | Some d =>
      (setRoundData None (setWrongGuessesInRound 0 (setFeedback idle s)),
       [SetRound d])
  end.

Definition handleSelectDifficulty (level : Difficulty) (s : Session)
    : Session * list Timer :=
  (setRoundData None
     (setWrongGuessesInRound 0
        (setFeedback idle (setScore 0 (setDifficulty (Some level) s)))),
   [SetRound level]).

Definition handleBackToMenu (s : Session) : Session * list Timer :=
  (setWrongGuessesInRound 0 (setScore 0 (setRoundData None (setDifficulty None s))),
   []).

Definition handleLetterClick (clickedLetter : string) (s : Session)
    : bool * Session * list Timer :=
  match feedback s, roundData s with
  | idle, Some rd =>
      if decide (toUpperCase clickedLetter = toUpperCase (matchingLetter rd))
      then (true,
            setFeedback correct (setScore (score s + 1) s),
            [StartNewRound (difficulty s)])
      else (false,
            setWrongGuessesInRound (wrongGuessesInRound s + 1) (setWrongGuess true s),
            [ClearWrongGuess])
  | _, _ => (false, s, [])
  end.

(** [Math.max(1, 5 - wrongGuessesInRound)]. *)
Definition starsToShow (wrongGuessesInRound : nat) : Z :=
  Z.max 1 (5 - Z.of_nat wrongGuessesInRound).

(** The stars are drawn only under [feedback === 'correct']. *)
Definition starsShown (s : Session) : option Z :=
  match feedback s with
  | correct => Some (starsToShow (wrongGuessesInRound s))
  | idle => None
  end.

(** A timer callback, run on the session as it is when the timer fires. *)
Definition fireTimer (tm : Timer) (s : Session) : Rand (Session * list Timer) :=
  match tm with
  | SetRound level =>
      r ← generateRound level; mret (setRoundData (Some r) s, [])
  | StartNewRound captured => mret (startNewRound captured s)
  | ClearWrongGuess => mret (setWrongGuess false s, [])
  end.

End Controller.
Export Controller.

(** ** The event loop

    User input and timers, with the clock in milliseconds. A timer fires
    when it is due, the earliest first, and the user acts only through what
    the current screen offers. *)

Module EventLoop.

Inductive Action :=
  | SelectDifficulty (level : Difficulty)
  | BackToMenu
  | LetterClick (letter : string).

(** What the rendered screen lets the user do: the three difficulty buttons
    are on the menu screen ([!difficulty]), the Menu button and the circles
    on the game screen, the circles only once [roundData] is there. (A
    [Letter] that is shaking drops the click before it reaches
    [handleLetterClick]; the model lets every click through.) *)
Definition offered (s : Session) (a : Action) : bool :=
  match a, difficulty s with
  | SelectDifficulty _, None => true
  | BackToMenu, Some _ => true
  | LetterClick letter, Some _ =>
      match roundData s with
      | Some rd => bool_decide (letter ∈ letters1 rd ++ letters2 rd)
      | None => false
      end
  | _, _ => false
  end.

Definition handle (a : Action) (s : Session) : Session * list Timer :=
  match a with
  | SelectDifficulty level => handleSelectDifficulty level s
  | BackToMenu => handleBackToMenu s
  | LetterClick letter =>
      let '(_, s', timers) := handleLetterClick letter s in (s', timers)
  end.

Record World := {
  session : Session;
  now : nat;
  pending : list (nat * Timer);
  rng : Rng
}.

Definition initialWorld (g : Rng) : World :=
  {| session := initialSession; now := 0; pending := []; rng := g |}.

(** [setTimeout(callback, delay)] called at time [t]. *)
Definition schedule (t : nat) (timers : list Timer) : list (nat * Timer) :=
  (λ tm, (t + delay tm, tm)) <$> timers.

(** The pending timer that is due first (the one scheduled first, among
    those due at the same time), and the others. *)
Fixpoint popEarliest (q : list (nat * Timer))
    : option ((nat * Timer) * list (nat * Timer)) :=
  match q with
  | [] => None
  | p :: q' =>
      match popEarliest q' with
      | Some (p', others) =>
          if p'.1 <? p.1 then Some (p', p :: others) else Some (p, q')
      | None => Some (p, q')
      end
  end.

Inductive Event :=
  | User (t : nat) (a : Action)
  | Fire.

(** A user action at time [t]: time does not go back, no pending timer was
    due before [t], and the screen offers the action. *)
Definition userStep (t : nat) (a : Action) (w : World) : option World :=
  if (now w <=? t) && forallb (λ p, t <=? p.1) (pending w) && offered (session w) a
  then
    let '(s', timers) := handle a (session w) in
    Some {| session := s'; now := t;
            pending := pending w ++ schedule t timers; rng := rng w |}
  else None.

Definition fireStep (w : World) : option World :=
  match popEarliest (pending w) with
  | None => None
  | Some ((due, tm), others) =>
      let '((s', timers), g') := fireTimer tm (session w) (rng w) in
      let t := now w `max` due in
      Some {| session := s'; now := t;
              pending := others ++ schedule t timers; rng := g' |}
  end.

Definition step (e : Event) (w : World) : option World :=
  match e with
  | User t a => userStep t a w
  | Fire => fireStep w
  end.

Fixpoint run (events : list Event) (w : World) : option World :=
  match events with
  | [] => Some w
  | e :: events' =>
      match step e w with
      | Some w' => run events' w'
      | None => None
      end
  end.

(** The worlds the program can be in. *)
Definition Reachable (w : World) : Prop :=
  ∃ g events, run events (initialWorld g) = Some w.

End EventLoop.
Export EventLoop.

(** ** Auxiliary predicates *)

(** [always m P]: whatever the draws are, the result of [m] satisfies [P]. *)
Definition always {A} (m : Rand A) (P : A → Prop) : Prop := ∀ g, P (m g).1.

(** What [chooseFillers] returns, in terms of the filler pool it built. *)
Definition fillersFrom (limit : nat) (res : string * JSSet * JSSet) : Prop :=
  let '(m, c1, c2) := res in
  ∃ pool,
    m ∈ ALPHABET_UPPER ∧
    NoDup (toUpperCase <$> pool) ∧
    (∀ x, x ∈ pool → toUpperCase x ≠ m) ∧
    length pool = 25 ∧
    c1 = take limit pool ∧
    c2 = take limit (drop limit pool).

(** The fillers [generateRound] has picked for the two circles when it
    reaches line 61. *)
Definition circleFillers (settings : Settings) (g : Rng) : JSSet * JSSet :=
  let '(_, lettersForCircle1, lettersForCircle2) := (chooseFillers settings g).1 in
  (lettersForCircle1, lettersForCircle2).

(** The concepts (uppercase forms) of a list of letters, as a set. *)
Definition conceptSet (letters : list string) : gset string :=
  list_to_set (toUpperCase <$> letters).

(** The three forms [getMatchingLetterWithCase] can return. *)
Definition caseOf (m x : string) : Prop :=
  x = m ∨ x = toUpperCase m ∨ x = toLowerCase m.

(** Every round on screen has an uppercase letter as its concept. *)
Definition roundWellFormed (s : Session) : Prop :=
  ∀ rd, roundData s = Some rd → matchingLetter rd ∈ ALPHABET_UPPER.

(** ** Scenarios

    Concrete runs of the event loop, all on the draws 0, 0, 0, ... *)

(** A round on screen: the easy tier is chosen and the loading timer fires
    at 100 ms. *)
Definition playingEvents : list Event :=
  [User 0 (SelectDifficulty easy); Fire].

Definition playingWorld : World :=
  default (initialWorld (λ _, 0)) (run playingEvents (initialWorld (λ _, 0))).

(** The player then finds the letter at 1000 ms: the next round is due at
    2200 ms. *)
Definition matchedWorld : World :=
  default playingWorld (userStep 1000 (LetterClick "A") playingWorld).

(** Before the next round is due the player goes back to the menu (1500 ms),
    picks the hard tier (2000 ms), gets its first round (2100 ms) and makes
    one wrong guess in it (2150 ms). *)
Definition staleEvents : list Event :=
  playingEvents ++
  [User 1000 (LetterClick "A"); User 1500 BackToMenu;
   User 2000 (SelectDifficulty hard); Fire; User 2150 (LetterClick "C")].

(** ** The [Letter] component

    [src/components/Circle.tsx]: the style a [Letter] draws once when it is
    mounted, and its click handler, which stands between the user and the
    [onLetterClick] it is given. *)

Module CircleComponent.

Definition colors : list string :=
  ["text-red-500"; "text-blue-600"; "text-green-500"; "text-purple-600";
   "text-orange-500"; "text-pink-500"].

(** The degrees of [transform] and the class picked from [colors];
    [colors[k]] is [undefined] ([None]) outside the array. The font size is a
    floating-point number and is not represented; its [Math.random()] is
    still drawn, between the other two. *)
Record RandomStyle := { rotation : Z; colorClass : option string }.

Definition randomStyle : Rand RandomStyle :=
  r ← randomBelow 40;
  _ ← draw;
  k ← randomBelow (length colors);
  mret {| rotation := Z.of_nat r - 20; colorClass := colors !! k |}.

(** The callback [() => setIsShaking(false)], due after 500 ms. *)
Inductive LetterTimer := StopShaking.

(** [handleClick] of a [Letter]: the new [isShaking], what [onLetterClick]
    did to the session and the timers it scheduled, and the timer of the
    letter itself. *)
Definition handleClick
    (onLetterClick : string → Session → bool * Session * list Timer)
    (isShaking : bool) (letter : string) (s : Session)
    : bool * Session * list Timer * list LetterTimer :=
  if isShaking then (isShaking, s, [], [])
  else
    let '(isCorrect, s', timers) := onLetterClick letter s in
    if isCorrect : bool then (isShaking, s', timers, [])
    else (true, s', timers, [StopShaking]).

End CircleComponent.
Export CircleComponent.

(** ** Further predicates *)

(** The [fullLetterPool] of [generateRound]. *)
Definition fullLetterPool (settings : Settings) : list string :=
  if useLowercase settings then ALPHABET_UPPER ++ ALPHABET_LOWER
  else ALPHABET_UPPER.

(** Every phase that waits for a timer has its timer: no pending
    [startNewRound] lacks a difficulty, the wrong mark has a timer that
    clears it, the correct overlay a timer that starts the next round, and
    the loading screen a timer that brings a round. *)
Definition timersInPlace (w : World) : Prop :=
  (∀ due, (due, StartNewRound None) ∉ pending w) ∧
  (wrongGuess (session w) = true → ∃ due, (due, ClearWrongGuess) ∈ pending w) ∧
  (feedback (session w) = correct →
     ∃ due d, (due, StartNewRound (Some d)) ∈ pending w) ∧
  (is_Some (difficulty (session w)) → roundData (session w) = None →
     ∃ due level, (due, SetRound level) ∈ pending w).

(** Every round on screen came out of [generateRound]. *)
Definition roundGenerated (s : Session) : Prop :=
  ∀ rd, roundData s = Some rd → ∃ level g, rd = (generateRound level g).1.

(** Events that are not a reset: timers firing and clicks on letters. *)
Definition noReset (e : Event) : bool :=
  match e with
  | Fire | User _ (LetterClick _) => true
  | User _ _ => false
  end.

Definition isClick (e : Event) : bool :=
  match e with
  | User _ (LetterClick _) => true
  | _ => false
  end.

(** Clicks on letters of the circles, one after the other, each through
    the [handleClick] of its [Letter]: a click is the letter together with
    the [isShaking] of that [Letter] at the moment of the click. *)
Definition clickLetters (clicks : list (bool * string)) (s : Session) : Session :=
  foldl (λ s click, (handleClick handleLetterClick click.1 click.2 s).1.1.2) s clicks.

(** No timer of a correct match is pending. *)
Definition noMatchTimer (q : list (nat * Timer)) : Prop :=
  ∀ due d, (due, StartNewRound d) ∉ q.

(** No round-loading timer is pending. *)
Definition noLoadTimer (q : list (nat * Timer)) : Prop :=
  ∀ due level, (due, SetRound level) ∉ q.

(** Every pending round-loading timer is due within its 100 ms. *)
Definition loadDueSoon (w : World) : Prop :=
  ∀ due level, (due, SetRound level) ∈ pending w → due ≤ now w + 100.

(** The state of affairs after [handleSelectDifficulty level] at time [t],
    while only round-loading and wrong-mark timers fire: the session is on
    the new tier, and either the timer of that selection is still pending,
    behind every other round-loading timer, or none is pending any more and
    the round is one generated for the new tier. *)
Definition superseding (level : Difficulty) (t : nat) (w : World) : Prop :=
  difficulty (session w) = Some level ∧
  score (session w) = 0 ∧
  feedback (session w) = idle ∧
  wrongGuessesInRound (session w) = 0 ∧
  noMatchTimer (pending w) ∧
  ((∃ l1 l2, pending w = l1 ++ (t + 100, SetRound level) :: l2 ∧
             (∀ due l, (due, SetRound l) ∈ l1 → due ≤ t + 100) ∧
             noLoadTimer l2) ∨
   (noLoadTimer (pending w) ∧
    ∃ g, roundData (session w) = Some (generateRound level g).1)).

(** The draws [j] first, then those of [g]. *)
Definition consDraw (j : nat) (g : Rng) : Rng :=
  λ k, match k with 0 => j | S k' => g k' end.

(** The easy tier is chosen at 0 ms and left for the menu at 30 ms, its
    loading timer still pending; the hard tier is chosen at 50 ms. *)
Definition hastyMenuWorld : World :=
  default (initialWorld (λ _, 0))
    (run [User 0 (SelectDifficulty easy); User 30 BackToMenu] (initialWorld (λ _, 0))).

Definition hastySelectWorld : World :=
  default hastyMenuWorld (userStep 50 (SelectDifficulty hard) hastyMenuWorld).

Definition hastyLoadedWorld : World :=
  default hastySelectWorld (run [Fire; Fire] hastySelectWorld).

(** After the match at 1000 ms the player returns to the menu at 1500 ms. *)
Definition menuAfterMatchEvents : list Event :=
  playingEvents ++ [User 1000 (LetterClick "A"); User 1500 BackToMenu].

(** ** Facts about the generator *)

Section RandomFacts.

Lemma always_ret {A} (x : A) (P : A → Prop) : P x → always (mret x) P.
Proof. intros H g. exact H. Qed.

Lemma always_bind {A B} (m : Rand A) (f : A → Rand B) (P : A → Prop) (Q : B → Prop) :
  always m P → (∀ x, P x → always (f x) Q) → always (m ≫= f) Q.
Proof.
  intros Hm Hf g. unfold mbind, rand_bind.
  specialize (Hm g). destruct (m g) as [x g']. exact (Hf x Hm g').
Qed.

Lemma always_mono {A} (m : Rand A) (P Q : A → Prop) :
  always m P → (∀ x, P x → Q x) → always m Q.
Proof. intros Hm HPQ g. apply HPQ, Hm. Qed.

Lemma randomBelow_lt n : 0 < n → always (randomBelow n) (λ j, j < n).
Proof.
  intros Hn g. unfold randomBelow, mbind, rand_bind, draw, mret, rand_ret. simpl.
  destruct n as [|n']; [lia|]. apply Nat.mod_upper_bound. lia.
Qed.

End RandomFacts.

Section ShuffleFacts.
Context {T : Type}.
Implicit Types (array : list T) (i j : nat).

Lemma insert_head_Permutation array j (x y : T) :
  array !! j = Some y → y :: <[j:=x]> array ≡ₚ x :: array.
Proof.
  revert j. induction array as [|z array IH]; intros [|j] Hj; simplify_eq/=.
  - apply Permutation_swap.
  - rewrite (Permutation_swap z y), (IH _ Hj). apply Permutation_swap.
Qed.

Lemma swap_Permutation array i j : swap array i j ≡ₚ array.
Proof.
  unfold swap.
  destruct (array !! i) as [x|] eqn:Hi; [|done].
  destruct (array !! j) as [y|] eqn:Hj; [|done].
  revert i j Hi Hj.
  induction array as [|z array IH]; intros [|i] [|j] Hi Hj; simplify_eq/=.
  - done.
  - by apply insert_head_Permutation.
  - by apply insert_head_Permutation.
  - f_equiv. by apply IH.
Qed.

(** Inside the array both reads succeed and the two writes happen. *)
Lemma swap_in_range array i j :
  i < length array → j ≤ i →
  ∃ x y, array !! i = Some x ∧ array !! j = Some y ∧
         swap array i j = <[j:=x]> (<[i:=y]> array).
Proof.
  intros Hi Hj.
  destruct (lookup_lt_is_Some_2 array i Hi) as [x Hx].
  destruct (lookup_lt_is_Some_2 array j ltac:(lia)) as [y Hy].
  exists x, y. unfold swap. by rewrite Hx, Hy.
Qed.

(** The loop starts at [length - 1] and counts down, and a swap keeps the
    length: every index it swaps is inside the array. *)
Lemma shuffleFrom_in_range i array g :
  i < length array →
  let j := (randomBelow (i + 1) g).1 in
  j ≤ i ∧ j < length array ∧ length (swap array i j) = length array.
Proof.
  intros Hi j. pose proof (randomBelow_lt (i + 1) ltac:(lia) g) as Hj.
  cbv beta in Hj. fold j in Hj. split_and!; [lia|lia|].
  apply Permutation_length, swap_Permutation.
Qed.

Lemma shuffleFrom_Permutation i array :
  always (shuffleFrom i array) (λ res, res ≡ₚ array).
Proof.
  revert array. induction i as [|i IH]; intros array; simpl.
  - by apply always_ret.
  - apply (always_bind _ _ (λ _, True)); [intros g; exact I|].
    intros j _. eapply always_mono; [apply IH|].
    intros res Hres. simpl in Hres. by rewrite Hres, swap_Permutation.
Qed.

Lemma shuffleArray_Permutation array :
  always (shuffleArray array) (λ res, res ≡ₚ array).
Proof. apply shuffleFrom_Permutation. Qed.

End ShuffleFacts.

Section AlphabetFacts.

Lemma NoDup_ALPHABET_UPPER : NoDup ALPHABET_UPPER.
Proof. apply (bool_decide_unpack _). by vm_compute. Qed.

Lemma length_ALPHABET_UPPER : length ALPHABET_UPPER = 26.
Proof. reflexivity. Qed.

Lemma upper_of_upper m : m ∈ ALPHABET_UPPER → toUpperCase m = m.
Proof.
  revert m. apply Forall_forall. apply (bool_decide_unpack _). by vm_compute.
Qed.

Lemma upper_of_lower m : m ∈ ALPHABET_UPPER → toUpperCase (toLowerCase m) = m.
Proof.
  revert m. apply Forall_forall. apply (bool_decide_unpack _). by vm_compute.
Qed.

(** With or without the lowercase half, the concepts of the full pool are
    the 26 uppercase letters. *)
Lemma fullPool_concepts (b : bool) c :
  c ∈ toUpperCase <$> (if b then ALPHABET_UPPER ++ ALPHABET_LOWER else ALPHABET_UPPER)
  ↔ c ∈ ALPHABET_UPPER.
Proof.
  destruct b.
  - assert (toUpperCase <$> ALPHABET_UPPER ++ ALPHABET_LOWER
            = ALPHABET_UPPER ++ ALPHABET_UPPER) as -> by reflexivity.
    rewrite elem_of_app. tauto.
  - assert (toUpperCase <$> ALPHABET_UPPER = ALPHABET_UPPER) as -> by reflexivity.
    done.
Qed.

Lemma nth_ALPHABET_UPPER k : k < 26 → nth k ALPHABET_UPPER EmptyString ∈ ALPHABET_UPPER.
Proof.
  intros Hk.
  destruct (lookup_lt_is_Some_2 ALPHABET_UPPER k Hk) as [x Hx].
  rewrite (nth_lookup_Some _ _ _ _ Hx). apply list_elem_of_lookup. eauto.
Qed.

End AlphabetFacts.

Section FillerFacts.
Implicit Types (pool letters rest : list string) (used : gset string).

(** The scan keeps what it had, adds only letters of fresh concept, and ends
    with every concept of the scanned list either collected or used. *)
Lemma collectFillers_spec letters pool used :
  NoDup (toUpperCase <$> pool) →
  (∀ x, x ∈ pool → toUpperCase x ∈ used) →
  let res := collectFillers letters pool used in
  NoDup (toUpperCase <$> res) ∧
  (∀ x, x ∈ pool → x ∈ res) ∧
  (∀ x, x ∈ res → x ∈ pool ∨ (x ∈ letters ∧ toUpperCase x ∉ used)) ∧
  (∀ c, c ∈ toUpperCase <$> letters → c ∈ (toUpperCase <$> res) ∨ c ∈ used).
Proof.
  revert pool used.
  induction letters as [|letter rest IH]; intros pool used Hnd Hused; simpl.
  - split_and!; [done|done|by left|]. intros c Hc. by apply elem_of_nil in Hc.
  - case_decide as Hin.
    + destruct (IH pool used Hnd Hused) as (H1 & H2 & H3 & H4).
      split_and!; [done|done| |].
      * intros x Hx. destruct (H3 x Hx) as [?|[??]]; [by left|right].
        split; [by apply list_elem_of_further|done].
      * intros c Hc.
        apply elem_of_cons in Hc as [->|Hc]; [by right|by apply H4].
    + destruct (IH (pool ++ [letter]) ({[toUpperCase letter]} ∪ used))
        as (H1 & H2 & H3 & H4).
      * rewrite fmap_app. apply NoDup_app. split_and!; [done| |apply NoDup_singleton].
        intros c Hc Hc'. apply list_elem_of_singleton in Hc' as ->.
        apply list_elem_of_fmap in Hc as (x & Hx & Hxp).
        apply Hin. rewrite Hx. by apply Hused.
      * intros x Hx. apply elem_of_app in Hx as [Hx|Hx].
        -- apply elem_of_union_r. by apply Hused.
        -- apply list_elem_of_singleton in Hx as ->. apply elem_of_union_l.
           by apply elem_of_singleton.
      * split_and!; [done| | |].
        -- intros x Hx. apply H2. apply elem_of_app. by left.
        -- intros x Hx. destruct (H3 x Hx) as [Hp|[Hr Hn]].
           ++ apply elem_of_app in Hp as [Hp|Hp]; [by left|right].
              apply list_elem_of_singleton in Hp as ->. split; [by left|done].
           ++ right. split; [by apply list_elem_of_further|].
              intros Hu. apply Hn. by apply elem_of_union_r.
        -- intros c Hc.
           apply elem_of_cons in Hc as [->|Hc].
           ++ left. apply list_elem_of_fmap_2, H2, elem_of_app. right.
              by apply list_elem_of_singleton.
           ++ destruct (H4 c Hc) as [?|Hu]; [by left|].
              apply elem_of_union in Hu as [Hu|Hu]; [|by right].
              apply elem_of_singleton in Hu as ->. left.
              apply list_elem_of_fmap_2, H2, elem_of_app. right.
              by apply list_elem_of_singleton.
Qed.

(** On letters that are pairwise different, [add] always appends, and the
    loop takes a prefix of what is left of the pool. *)
Lemma fillCircle_spec limit rest (letters : JSSet) fillerIndex :
  NoDup (letters ++ rest) →
  fillCircle limit rest letters fillerIndex =
    (letters ++ take (limit - length letters) rest,
     fillerIndex + min (limit - length letters) (length rest)).
Proof.
  revert letters fillerIndex.
  induction rest as [|x rest IH]; intros letters fillerIndex Hnd; simpl.
  - rewrite take_nil, app_nil_r. f_equal. lia.
  - destruct (Nat.ltb_spec (length letters) limit) as [Hlt|Hge].
    + assert (jsAdd x letters = letters ++ [x]) as ->.
      { unfold jsAdd. case_decide as Hx; [|done].
        apply NoDup_app in Hnd as (_ & Hd & _). destruct (Hd x Hx). by left. }
      rewrite IH by (by rewrite <- app_assoc).
      rewrite length_app. simpl.
      replace (limit - length letters) with (S (limit - (length letters + 1))) by lia.
      simpl. rewrite <- app_assoc. simpl. f_equal. lia.
    + replace (limit - length letters) with 0 by lia.
      simpl. rewrite app_nil_r. f_equal. lia.
Qed.

Lemma fillerPool_spec m shuffled (b : bool) :
  m ∈ ALPHABET_UPPER →
  shuffled ≡ₚ (if b then ALPHABET_UPPER ++ ALPHABET_LOWER else ALPHABET_UPPER) →
  let pool := collectFillers shuffled [] {[m]} in
  NoDup (toUpperCase <$> pool) ∧
  (∀ x, x ∈ pool → toUpperCase x ≠ m) ∧
  length pool = 25.
Proof.
  intros Hm Hperm pool.
  destruct (collectFillers_spec shuffled [] {[m]}) as (H1 & _ & H3 & H4).
  { apply NoDup_nil_2. }
  { intros x Hx. by apply elem_of_nil in Hx. }
  fold pool in H1, H3, H4.
  assert (Hne : ∀ x, x ∈ pool → toUpperCase x ≠ m).
  { intros x Hx. destruct (H3 x Hx) as [Hn|[_ Hn]]; [by apply elem_of_nil in Hn|].
    intros Heq. apply Hn. by apply elem_of_singleton. }
  split_and!; [done|done|].
  assert (Hp : m :: (toUpperCase <$> pool) ≡ₚ ALPHABET_UPPER).
  { apply NoDup_Permutation; [|apply NoDup_ALPHABET_UPPER|].
    - apply NoDup_cons. split; [|done].
      intros Hin. apply list_elem_of_fmap in Hin as (x & Hx & Hxp).
      by apply (Hne x Hxp).
    - intros c. split.
      + intros Hc. apply elem_of_cons in Hc as [->|Hc]; [done|].
        apply list_elem_of_fmap in Hc as (x & -> & Hx).
        destruct (H3 x Hx) as [Hn|[Hs _]]; [by apply elem_of_nil in Hn|].
        apply (fullPool_concepts b). rewrite <- Hperm.
        by apply list_elem_of_fmap_2.
      + intros Hc. apply (fullPool_concepts b) in Hc. rewrite <- Hperm in Hc.
        destruct (H4 c Hc) as [?|Hu]; [by right|].
        apply elem_of_singleton in Hu as ->. by left. }
  apply Permutation_length in Hp.
  rewrite length_ALPHABET_UPPER, length_cons, length_fmap in Hp. lia.
Qed.

Lemma chooseFillers_spec settings :
  always (chooseFillers settings) (fillersFrom (lettersPerCircle settings - 1)).
Proof.
  unfold chooseFillers.
  apply (always_bind _ _ (λ k, k < 26)); [by apply randomBelow_lt; simpl; lia|].
  intros k Hk.
  eapply always_bind; [apply shuffleArray_Permutation|].
  intros shuffled Hperm. cbv beta in Hperm.
  pose proof (nth_ALPHABET_UPPER k Hk) as Hm.
  destruct (fillerPool_spec _ _ _ Hm Hperm) as (Hnd & Hne & Hlen).
  set (pool := collectFillers shuffled [] {[nth k ALPHABET_UPPER EmptyString]}) in *.
  set (limit := lettersPerCircle settings - 1).
  assert (Hndp : NoDup pool) by (by eapply NoDup_fmap_1).
  rewrite (fillCircle_spec limit pool [] 0) by done.
  simpl. rewrite Nat.sub_0_r.
  rewrite fillCircle_spec.
  2:{ simpl. eapply sublist_NoDup; [exact Hndp|apply sublist_drop]. }
  simpl. rewrite Nat.sub_0_r.
  apply always_ret. exists pool. split_and!; try done.
  f_equal. destruct (decide (limit ≤ length pool)).
  - by rewrite Nat.min_l.
  - rewrite Nat.min_r by lia. by rewrite !drop_ge by lia.
Qed.

End FillerFacts.

Section RoundFacts.
Implicit Types (settings : Settings) (g : Rng).

Lemma getMatchingLetterWithCase_spec settings m :
  always (getMatchingLetterWithCase settings m) (caseOf m).
Proof.
  unfold getMatchingLetterWithCase, caseOf. destruct (useLowercase settings).
  - apply (always_bind _ _ (λ _, True)); [done|].
    intros [] _; apply always_ret; auto.
  - apply always_ret. auto.
Qed.

Lemma caseOf_concept m x : m ∈ ALPHABET_UPPER → caseOf m x → toUpperCase x = m.
Proof.
  intros Hm [-> | [-> | ->]].
  - by apply upper_of_upper.
  - rewrite (upper_of_upper m Hm). by apply upper_of_upper.
  - by apply upper_of_lower.
Qed.

(** One run of [generateRoundWith], split at the end of [chooseFillers]:
    each circle is a rearrangement of its fillers and one form of the
    concept. *)
Lemma generateRoundWith_run settings g :
  ∃ m c1 c2 m1 m2,
    (chooseFillers settings g).1 = (m, c1, c2) ∧
    matchingLetter (generateRoundWith settings g).1 = m ∧
    caseOf m m1 ∧ caseOf m m2 ∧
    letters1 (generateRoundWith settings g).1 ≡ₚ c1 ++ [m1] ∧
    letters2 (generateRoundWith settings g).1 ≡ₚ c2 ++ [m2].
Proof.
  unfold generateRoundWith, mbind, rand_bind.
  destruct (chooseFillers settings g) as [[[m c1] c2] g1].
  pose proof (getMatchingLetterWithCase_spec settings m g1) as Hm1.
  destruct (getMatchingLetterWithCase settings m g1) as [m1 g2].
  pose proof (shuffleArray_Permutation (c1 ++ [m1]) g2) as Hl1.
  destruct (shuffleArray (c1 ++ [m1]) g2) as [l1 g3].
  pose proof (getMatchingLetterWithCase_spec settings m g3) as Hm2.
  destruct (getMatchingLetterWithCase settings m g3) as [m2 g4].
  pose proof (shuffleArray_Permutation (c2 ++ [m2]) g4) as Hl2.
  destruct (shuffleArray (c2 ++ [m2]) g4) as [l2 g5].
  exists m, c1, c2, m1, m2. by simpl in *.
Qed.

Lemma generateRoundWith_concept settings g :
  matchingLetter (generateRoundWith settings g).1 ∈ ALPHABET_UPPER.
Proof.
  destruct (generateRoundWith_run settings g) as (m & c1 & c2 & m1 & m2 & Hc & -> & _).
  pose proof (chooseFillers_spec settings g) as Hf. rewrite Hc in Hf.
  by destruct Hf as (pool & Hm & _).
Qed.

Lemma filter_none {A} (P : A → Prop) `{∀ x, Decision (P x)} (l : list A) :
  (∀ x, x ∈ l → ¬ P x) → filter P l = [].
Proof.
  induction l as [|x l IH]; intros Hl; [done|].
  rewrite filter_cons_False by (apply Hl; left).
  apply IH. intros y Hy. apply Hl. by right.
Qed.

(** A circle made of fillers of other concepts and one form of the concept
    has exactly one letter of the concept, and no concept twice. *)
Lemma circle_one_match m fillers mi circle :
  (∀ x, x ∈ fillers → toUpperCase x ≠ m) → toUpperCase mi = m →
  circle ≡ₚ fillers ++ [mi] →
  length (filter (λ x, toUpperCase x = m) circle) = 1.
Proof.
  intros Hne Hmi Hp. rewrite Hp, filter_app, (filter_none _ fillers) by done.
  by rewrite filter_cons_True.
Qed.

Lemma circle_NoDup m fillers mi circle :
  NoDup (toUpperCase <$> fillers) →
  (∀ x, x ∈ fillers → toUpperCase x ≠ m) → toUpperCase mi = m →
  circle ≡ₚ fillers ++ [mi] →
  NoDup (toUpperCase <$> circle).
Proof.
  intros Hnd Hne Hmi Hp. rewrite Hp, fmap_app. apply NoDup_app.
  split_and!; [done| |apply NoDup_singleton].
  intros c Hc Hc'. apply list_elem_of_singleton in Hc' as ->.
  apply list_elem_of_fmap in Hc as (x & Hx & Hxf). apply (Hne x Hxf). congruence.
Qed.

Lemma in_take {A} n (l : list A) x : x ∈ take n l → x ∈ l.
Proof. apply subseteq_take. Qed.

Lemma in_take_drop {A} n k (l : list A) x : x ∈ take k (drop n l) → x ∈ l.
Proof. intros Hx. eapply subseteq_drop, in_take, Hx. Qed.

(** Two consecutive stretches of a list without duplicates share nothing. *)
Lemma take_drop_disjoint {A} (l : list A) n k x :
  NoDup l → x ∈ take n l → x ∈ take k (drop n l) → False.
Proof.
  intros Hnd H1 H2. rewrite <- (take_drop n l) in Hnd.
  apply NoDup_app in Hnd as (_ & Hd & _).
  apply (Hd x H1). by apply (in_take k).
Qed.

End RoundFacts.

Section RoundShape.
Implicit Types (settings : Settings) (g : Rng).

(** Everything the claims need about one generated round. *)
Lemma generateRoundWith_shape settings g :
  let limit := lettersPerCircle settings - 1 in
  let r := (generateRoundWith settings g).1 in
  ∃ pool m1 m2,
    circleFillers settings g = (take limit pool, take limit (drop limit pool)) ∧
    matchingLetter r ∈ ALPHABET_UPPER ∧
    NoDup (toUpperCase <$> pool) ∧
    (∀ x, x ∈ pool → toUpperCase x ≠ matchingLetter r) ∧
    length pool = 25 ∧
    toUpperCase m1 = matchingLetter r ∧ toUpperCase m2 = matchingLetter r ∧
    letters1 r ≡ₚ take limit pool ++ [m1] ∧
    letters2 r ≡ₚ take limit (drop limit pool) ++ [m2].
Proof.
  intros limit r. subst r.
  destruct (generateRoundWith_run settings g)
    as (m & c1 & c2 & m1 & m2 & Hc & Hm & Hm1 & Hm2 & Hl1 & Hl2).
  pose proof (chooseFillers_spec settings g) as Hf. rewrite Hc in Hf.
  destruct Hf as (pool & Hin & Hnd & Hne & Hlen & -> & ->).
  exists pool, m1, m2. rewrite Hm. unfold circleFillers. rewrite Hc.
  split_and!; try done; by apply caseOf_concept.
Qed.

Lemma elem_of_conceptSet c letters :
  c ∈ conceptSet letters ↔ ∃ x, c = toUpperCase x ∧ x ∈ letters.
Proof. unfold conceptSet. rewrite elem_of_list_to_set. apply list_elem_of_fmap. Qed.

End RoundShape.

(** ** The round generator: claims *)

(** C2. For the three shipped tiers (4, 6 and 8 letters per circle), both
    circles of every generated round have exactly [lettersPerCircle]
    letters, and exactly one letter of each circle has the target concept
    as its uppercase form. *)
Theorem generateRound_circle_sizes (d : Difficulty) (g : Rng) :
  let r := (generateRound d g).1 in
  let n := lettersPerCircle (DIFFICULTY_SETTINGS d) in
  n = match d with easy => 4 | medium => 6 | hard => 8 end ∧
  length (letters1 r) = n ∧
  length (letters2 r) = n ∧
  length (filter (λ x, toUpperCase x = matchingLetter r) (letters1 r)) = 1 ∧
  length (filter (λ x, toUpperCase x = matchingLetter r) (letters2 r)) = 1.
Proof.
  intros r n. subst r n. unfold generateRound.
  destruct (generateRoundWith_shape (DIFFICULTY_SETTINGS d) g)
    as (pool & m1 & m2 & _ & _ & _ & Hne & Hlen & Hm1 & Hm2 & Hl1 & Hl2).
  split_and!.
  - by destruct d.
  - rewrite Hl1, length_app, length_take, Hlen. destruct d; simpl; lia.
  - rewrite Hl2, length_app, length_take, length_drop, Hlen. destruct d; simpl; lia.
  - eapply circle_one_match; [|exact Hm1|exact Hl1].
    intros x Hx. apply Hne. by eapply in_take.
  - eapply circle_one_match; [|exact Hm2|exact Hl2].
    intros x Hx. apply Hne. by eapply in_take_drop.
Qed.

(** C3. In every generated round the fillers of the two circles have
    disjoint concept sets: the circles are cut one after the other from one
    pool without repeated concepts, so the only concept the two circles
    share is the target. *)
Theorem generateRound_fillers_disjoint (d : Difficulty) (g : Rng) :
  let r := (generateRound d g).1 in
  let fillers := circleFillers (DIFFICULTY_SETTINGS d) g in
  conceptSet fillers.1 ## conceptSet fillers.2 ∧
  conceptSet (letters1 r) = conceptSet fillers.1 ∪ {[matchingLetter r]} ∧
  conceptSet (letters2 r) = conceptSet fillers.2 ∪ {[matchingLetter r]} ∧
  conceptSet (letters1 r) ∩ conceptSet (letters2 r) = {[matchingLetter r]}.
Proof.
  intros r fillers. subst r fillers. unfold generateRound.
  destruct (generateRoundWith_shape (DIFFICULTY_SETTINGS d) g)
    as (pool & m1 & m2 & -> & _ & Hnd & Hne & _ & Hm1 & Hm2 & Hl1 & Hl2).
  set (limit := lettersPerCircle (DIFFICULTY_SETTINGS d) - 1) in *.
  set (r := (generateRoundWith (DIFFICULTY_SETTINGS d) g).1) in *.
  simpl.
  assert (Hdisj : conceptSet (take limit pool) ## conceptSet (take limit (drop limit pool))).
  { intros c H1 H2. unfold conceptSet in H1, H2.
    rewrite elem_of_list_to_set, fmap_take in H1.
    rewrite elem_of_list_to_set, fmap_take, fmap_drop in H2.
    by apply (take_drop_disjoint _ _ _ _ Hnd H1 H2). }
  assert (H1 : conceptSet (letters1 r) = conceptSet (take limit pool) ∪ {[matchingLetter r]}).
  { unfold conceptSet. rewrite Hl1, fmap_app, list_to_set_app_L. simpl.
    rewrite Hm1. set_solver. }
  assert (H2 : conceptSet (letters2 r)
               = conceptSet (take limit (drop limit pool)) ∪ {[matchingLetter r]}).
  { unfold conceptSet. rewrite Hl2, fmap_app, list_to_set_app_L. simpl.
    rewrite Hm2. set_solver. }
  split_and!; [done|done|done|].
  rewrite H1, H2. set_solver.
Qed.

(** C6. In every generated round, for every tier, no two letters of one
    circle have the same uppercase concept, and no filler has the target
    concept. *)
Theorem generateRound_concepts_unique (d : Difficulty) (g : Rng) :
  let r := (generateRound d g).1 in
  let fillers := circleFillers (DIFFICULTY_SETTINGS d) g in
  NoDup (toUpperCase <$> letters1 r) ∧
  NoDup (toUpperCase <$> letters2 r) ∧
  Forall (λ x, toUpperCase x ≠ matchingLetter r) fillers.1 ∧
  Forall (λ x, toUpperCase x ≠ matchingLetter r) fillers.2 ∧
  fillers.1 ⊆ letters1 r ∧
  fillers.2 ⊆ letters2 r.
Proof.
  intros r fillers. subst r fillers. unfold generateRound.
  destruct (generateRoundWith_shape (DIFFICULTY_SETTINGS d) g)
    as (pool & m1 & m2 & -> & _ & Hnd & Hne & _ & Hm1 & Hm2 & Hl1 & Hl2).
  set (limit := lettersPerCircle (DIFFICULTY_SETTINGS d) - 1) in *.
  simpl.
  assert (Hnd1 : NoDup (toUpperCase <$> take limit pool)).
  { rewrite fmap_take. eapply sublist_NoDup; [exact Hnd|apply sublist_take]. }
  assert (Hnd2 : NoDup (toUpperCase <$> take limit (drop limit pool))).
  { rewrite fmap_take, fmap_drop.
    eapply sublist_NoDup; [exact Hnd|].
    etrans; [apply sublist_take|apply sublist_drop]. }
  assert (Hne1 : ∀ x, x ∈ take limit pool → toUpperCase x ≠ matchingLetter
                   (generateRoundWith (DIFFICULTY_SETTINGS d) g).1).
  { intros x Hx. apply Hne. by eapply in_take. }
  assert (Hne2 : ∀ x, x ∈ take limit (drop limit pool) → toUpperCase x ≠ matchingLetter
                   (generateRoundWith (DIFFICULTY_SETTINGS d) g).1).
  { intros x Hx. apply Hne. by eapply in_take_drop. }
  split_and!.
  - eapply circle_NoDup; [exact Hnd1|exact Hne1|exact Hm1|exact Hl1].
  - eapply circle_NoDup; [exact Hnd2|exact Hne2|exact Hm2|exact Hl2].
  - by apply Forall_forall.
  - by apply Forall_forall.
  - intros x Hx. rewrite Hl1. apply elem_of_app. by left.
  - intros x Hx. rewrite Hl2. apply elem_of_app. by left.
Qed.

(** C4, as stated, fails at 14 letters per circle: an uppercase-only tier
    has 25 candidate fillers and two circles of 14 need 26, so the second
    circle gets 12 fillers and 13 letters. *)
Lemma fourteen_letters_exhaust_pool :
  let settings := {| lettersPerCircle := 14; useLowercase := false |} in
  let g : Rng := λ _, 0 in
  lettersPerCircle settings ≤ 14 ∧
  length (circleFillers settings g).1 = 13 ∧
  length (circleFillers settings g).2 = 12 ∧
  length (letters2 (generateRoundWith settings g).1) = 13.
Proof. vm_compute. repeat split. lia. Qed.

(** C4, amended. For every uppercase-only configuration with at least 1 and
    at most 13 letters per circle, the partition never exhausts the filler
    pool: both circles receive exactly [lettersPerCircle - 1] fillers and
    have [lettersPerCircle] letters. From 14 letters per circle on, the
    second circle is short. *)
Theorem partition_complete_up_to_13 (settings : Settings) (g : Rng) :
  useLowercase settings = false →
  1 ≤ lettersPerCircle settings →
  let n := lettersPerCircle settings in
  let fillers := circleFillers settings g in
  let r := (generateRoundWith settings g).1 in
  (n ≤ 13 →
     length fillers.1 = n - 1 ∧ length fillers.2 = n - 1 ∧
     length (letters1 r) = n ∧ length (letters2 r) = n) ∧
  (14 ≤ n → length fillers.2 < n - 1 ∧ length (letters2 r) < n).
Proof.
  intros _ Hn n fillers r. subst n fillers r.
  destruct (generateRoundWith_shape settings g)
    as (pool & m1 & m2 & -> & _ & _ & _ & Hlen & _ & _ & Hl1 & Hl2).
  simpl. rewrite Hl1, Hl2, !length_app, !length_take, !length_drop, Hlen. simpl.
  split; intros; lia.
Qed.

Lemma partition_complete_up_to_13_witness :
  let settings := {| lettersPerCircle := 13; useLowercase := false |} in
  let g : Rng := λ _, 0 in
  length (circleFillers settings g).1 = 12 ∧
  length (circleFillers settings g).2 = 12 ∧
  length (letters1 (generateRoundWith settings g).1) = 13 ∧
  length (letters2 (generateRoundWith settings g).1) = 13.
Proof.
  intros settings g.
  apply (partition_complete_up_to_13 settings g); [reflexivity|simpl; lia|simpl; lia].
Defined.

(** ** The session controller: reachable sessions *)

Section Invariant.

Lemma handle_roundWellFormed a s :
  roundWellFormed s → roundWellFormed (handle a s).1.
Proof.
  intros Hs rd. destruct a as [level| |letter]; simpl; [done|done|].
  unfold handleLetterClick.
  destruct (feedback s), (roundData s) as [rd0|] eqn:Hr;
    [case_decide|..]; simpl; rewrite ?Hr; try done;
    intros [= <-]; by apply Hs.
Qed.

Lemma fireTimer_roundWellFormed tm s g :
  roundWellFormed s → roundWellFormed (fireTimer tm s g).1.1.
Proof.
  intros Hs rd. destruct tm as [level|[d|]|]; simpl; try done; try apply Hs.
  unfold mbind, rand_bind. unfold generateRound.
  pose proof (generateRoundWith_concept (DIFFICULTY_SETTINGS level) g) as Hm.
  destruct (generateRoundWith (DIFFICULTY_SETTINGS level) g) as [r g'].
  simpl. by intros [= <-].
Qed.

Lemma step_roundWellFormed e w w' :
  roundWellFormed (session w) → step e w = Some w' → roundWellFormed (session w').
Proof.
  intros Hw. destruct e as [t a|]; simpl.
  - unfold userStep. case_match; [|done].
    pose proof (handle_roundWellFormed a _ Hw) as Ha.
    destruct (handle a (session w)) as [s' timers]. by intros [= <-].
  - unfold fireStep. destruct (popEarliest (pending w)) as [[[due tm] others]|]; [|done].
    pose proof (fireTimer_roundWellFormed tm _ (rng w) Hw) as Hf.
    destruct (fireTimer tm (session w) (rng w)) as [[s' timers] g'].
    by intros [= <-].
Qed.

Lemma run_roundWellFormed events w w' :
  roundWellFormed (session w) → run events w = Some w' → roundWellFormed (session w').
Proof.
  revert w. induction events as [|e events IH]; intros w Hw; simpl.
  - by intros [= <-].
  - destruct (step e w) as [w1|] eqn:He; [|done].
    apply IH. by eapply step_roundWellFormed.
Qed.

Lemma Reachable_roundWellFormed w : Reachable w → roundWellFormed (session w).
Proof.
  intros (g & events & Hrun). eapply run_roundWellFormed; [|exact Hrun].
  intros rd. by simpl.
Qed.

Lemma playingWorld_Reachable : Reachable playingWorld.
Proof.
  exists (λ _, 0), playingEvents. by vm_compute.
Qed.

End Invariant.

(** ** The session controller: claims *)

(** C1. In every session the program can reach in which a round is on
    screen and [feedback] is idle, a click on a letter whose uppercase form
    is the round's concept returns true, adds exactly 1 to [score] and sets
    [feedback] to correct; a click on any other letter returns false, adds
    exactly 1 to [wrongGuessesInRound] and leaves [score], the round, the
    difficulty and [feedback] as they were. *)
Theorem handleLetterClick_resolves (w : World) (rd : RoundData) (letter : string) :
  Reachable w →
  feedback (session w) = idle →
  roundData (session w) = Some rd →
  let s := session w in
  let result := (handleLetterClick letter s).1.1 in
  let s' := (handleLetterClick letter s).1.2 in
  (toUpperCase letter = matchingLetter rd →
     result = true ∧ score s' = score s + 1 ∧ feedback s' = correct) ∧
  (toUpperCase letter ≠ matchingLetter rd →
     result = false ∧
     wrongGuessesInRound s' = wrongGuessesInRound s + 1 ∧
     score s' = score s ∧ roundData s' = roundData s ∧
     difficulty s' = difficulty s ∧ feedback s' = feedback s).
Proof.
  intros Hw Hf Hr s result s'. subst s result s'.
  pose proof (Reachable_roundWellFormed w Hw rd Hr) as Hm.
  apply upper_of_upper in Hm.
  unfold handleLetterClick. rewrite Hf, Hr, Hm.
  split; intros Hl; case_decide; try done; simpl; by rewrite ?Hf, ?Hr.
Qed.

Lemma handleLetterClick_resolves_witness :
  (handleLetterClick "a" (session playingWorld)).1.1 = true ∧
  score (handleLetterClick "a" (session playingWorld)).1.2 = 1 ∧
  feedback (handleLetterClick "a" (session playingWorld)).1.2 = correct.
Proof.
  apply (handleLetterClick_resolves playingWorld
           {| letters1 := ["C"; "D"; "A"; "B"]; letters2 := ["F"; "G"; "A"; "E"];
              matchingLetter := "A" |} "a").
  - exact playingWorld_Reachable.
  - reflexivity.
  - reflexivity.
  - reflexivity.
Defined.

(** C5. A click while [feedback] is not idle, or while no round is loaded,
    returns false and changes no field of the session; in particular the
    click that follows a correct match returns false and does not add to
    [score] a second time. *)
Theorem handleLetterClick_guard (s : Session) (rd : RoundData) (letter second : string) :
  (feedback s ≠ idle ∨ roundData s = None →
     handleLetterClick letter s = (false, s, [])) ∧
  (feedback s = idle → roundData s = Some rd →
   toUpperCase letter = toUpperCase (matchingLetter rd) →
   let s' := (handleLetterClick letter s).1.2 in
   (handleLetterClick letter s).1.1 = true ∧
   score s' = score s + 1 ∧
   handleLetterClick second s' = (false, s', [])).
Proof.
  split.
  - unfold handleLetterClick. intros [Hf|Hr].
    + by destruct (feedback s).
    + rewrite Hr. by destruct (feedback s).
  - intros Hf Hr Hl. unfold handleLetterClick at 1 2 3.
    rewrite Hf, Hr. rewrite decide_True by done. simpl.
    by split_and!.
Qed.

Lemma handleLetterClick_guard_witness :
  handleLetterClick "A" initialSession = (false, initialSession, []) ∧
  (let s' := (handleLetterClick "a" (session playingWorld)).1.2 in
   handleLetterClick "A" s' = (false, s', [])).
Proof.
  pose (rd := {| letters1 := ["C"; "D"; "A"; "B"]; letters2 := ["F"; "G"; "A"; "E"];
                 matchingLetter := "A" |}).
  split.
  - apply (proj1 (handleLetterClick_guard initialSession rd "A" "A")).
    right. reflexivity.
  - apply (proj2 (handleLetterClick_guard (session playingWorld) rd "a" "A"));
      reflexivity.
Defined.

(** C7. On a correct match the stars shown are
    [max(1, 5 - wrongGuessesInRound)]: 5 after no wrong guess, 2 after three,
    1 after four or more, and never fewer than 1. *)
Theorem stars_on_correct_match (s : Session) (rd : RoundData) (letter : string) :
  feedback s = idle →
  roundData s = Some rd →
  toUpperCase letter = toUpperCase (matchingLetter rd) →
  let n := wrongGuessesInRound s in
  let stars := starsShown (handleLetterClick letter s).1.2 in
  stars = Some (Z.max 1 (5 - Z.of_nat n)) ∧
  (n = 0 → stars = Some 5%Z) ∧
  (n = 3 → stars = Some 2%Z) ∧
  (4 ≤ n → stars = Some 1%Z) ∧
  (∀ k, stars = Some k → (1 ≤ k)%Z).
Proof.
  intros Hf Hr Hl n stars. subst n stars.
  unfold handleLetterClick. rewrite Hf, Hr, decide_True by done.
  unfold starsShown, starsToShow. simpl.
  split_and!.
  - done.
  - by intros ->.
  - by intros ->.
  - intros Hn. f_equal. lia.
  - intros k [= <-]. lia.
Qed.

Lemma stars_on_correct_match_witness :
  starsShown (handleLetterClick "a" (session playingWorld)).1.2 = Some 5%Z.
Proof.
  apply (stars_on_correct_match (session playingWorld)
           {| letters1 := ["C"; "D"; "A"; "B"]; letters2 := ["F"; "G"; "A"; "E"];
              matchingLetter := "A" |} "a"); reflexivity.
Defined.

(** C9. [handleBackToMenu] does not touch [feedback]: it clears the
    difficulty and the round and resets [score] and [wrongGuessesInRound]
    to 0. A [feedback] that was correct stays correct on the menu screen,
    through clicks, further returns to the menu and the timers that load a
    round or clear the wrong mark, and is set back to idle by
    [handleSelectDifficulty] or by a [startNewRound] that holds a
    difficulty. *)
Theorem handleBackToMenu_keeps_feedback (s : Session) (g : Rng) :
  let s' := (handleBackToMenu s).1 in
  feedback s' = feedback s ∧
  difficulty s' = None ∧ roundData s' = None ∧
  score s' = 0 ∧ wrongGuessesInRound s' = 0 ∧
  (feedback s = correct →
     feedback s' = correct ∧
     (∀ letter, (handleLetterClick letter s').1.2 = s') ∧
     feedback (handleBackToMenu s').1 = correct ∧
     (∀ level, feedback (fireTimer (SetRound level) s' g).1.1 = correct) ∧
     feedback (fireTimer ClearWrongGuess s' g).1.1 = correct ∧
     feedback (fireTimer (StartNewRound None) s' g).1.1 = correct ∧
     (∀ level, feedback (handleSelectDifficulty level s').1 = idle) ∧
     (∀ d, feedback (fireTimer (StartNewRound (Some d)) s' g).1.1 = idle)).
Proof.
  intros s'. subst s'. simpl. split_and!; try done.
  intros Hf. split_and!; try done.
  - intros letter. unfold handleLetterClick. simpl. by rewrite Hf.
  - intros level. unfold mbind, rand_bind.
    by destruct (generateRound level g).
Qed.

Lemma handleBackToMenu_keeps_feedback_witness :
  feedback (session matchedWorld) = correct ∧
  feedback (handleBackToMenu (session matchedWorld)).1 = correct ∧
  difficulty (handleBackToMenu (session matchedWorld)).1 = None.
Proof.
  destruct (handleBackToMenu_keeps_feedback (session matchedWorld) (λ _, 0))
    as (_ & Hd & _ & _ & _ & Hstays).
  assert (Hf : feedback (session matchedWorld) = correct) by reflexivity.
  destruct (Hstays Hf) as (Hc & _).
  split_and!; [exact Hf|exact Hc|exact Hd].
Defined.

(** C10. The claim: whenever the difficulty is null, [startNewRound] is a
    complete no-op. The code: the guard of [startNewRound] reads the
    difficulty of the render that scheduled the call, not the session's.
    After the match at 1000 ms and the return to the menu at 1500 ms the
    session's difficulty is null and the call is due at 2200 ms; it runs
    with the difficulty of the easy render, sets [feedback] back to idle and
    schedules a round generation, and at 2300 ms an easy round is stored
    while the difficulty is still null. *)
Theorem startNewRound_runs_on_menu :
  let start := initialWorld (λ _, 0) in
  session <$> run menuAfterMatchEvents start =
    Some {| difficulty := None; roundData := None; score := 0;
            feedback := correct; wrongGuess := false;
            wrongGuessesInRound := 0 |} ∧
  pending <$> run menuAfterMatchEvents start =
    Some [(2200, StartNewRound (Some easy))] ∧
  session <$> run (menuAfterMatchEvents ++ [Fire]) start =
    Some {| difficulty := None; roundData := None; score := 0;
            feedback := idle; wrongGuess := false;
            wrongGuessesInRound := 0 |} ∧
  pending <$> run (menuAfterMatchEvents ++ [Fire]) start =
    Some [(2300, SetRound easy)] ∧
  session <$> run (menuAfterMatchEvents ++ [Fire; Fire]) start =
    Some {| difficulty := None;
            roundData := Some {| letters1 := ["C"; "D"; "A"; "B"];
                                 letters2 := ["F"; "G"; "A"; "E"];
                                 matchingLetter := "A" |};
            score := 0; feedback := idle; wrongGuess := false;
            wrongGuessesInRound := 0 |}.
Proof. vm_compute. by repeat split. Qed.

(** C8, as stated, fails: no timer is ever cancelled. The timer of the
    match in the easy round is still pending when the hard tier has its
    first round and a wrong guess in it; firing at 2200 ms it runs the
    [startNewRound] of the easy render, which erases that round and the
    wrong-guess count, and the timer this schedules puts an easy round of 4
    letters per circle on the screen of the hard tier at 2300 ms. *)
Lemma stale_timer_overwrites_newer_round :
  let start := initialWorld (λ _, 0) in
  session <$> run staleEvents start =
    Some {| difficulty := Some hard;
            roundData := Some {| letters1 := ["C"; "D"; "E"; "F"; "G"; "H"; "a"; "B"];
                                 letters2 := ["J"; "K"; "L"; "M"; "N"; "O"; "a"; "I"];
                                 matchingLetter := "A" |};
            score := 0; feedback := idle; wrongGuess := true;
            wrongGuessesInRound := 1 |} ∧
  pending <$> run staleEvents start =
    Some [(2200, StartNewRound (Some easy)); (2650, ClearWrongGuess)] ∧
  session <$> run (staleEvents ++ [Fire]) start =
    Some {| difficulty := Some hard; roundData := None;
            score := 0; feedback := idle; wrongGuess := true;
            wrongGuessesInRound := 0 |} ∧
  session <$> run (staleEvents ++ [Fire; Fire]) start =
    Some {| difficulty := Some hard;
            roundData := Some {| letters1 := ["C"; "D"; "A"; "B"];
                                 letters2 := ["F"; "G"; "A"; "E"];
                                 matchingLetter := "A" |};
            score := 0; feedback := idle; wrongGuess := true;
            wrongGuessesInRound := 0 |}.
Proof. vm_compute. by repeat split. Qed.

(** ** More about [shuffleArray] *)

Section ShuffleReach.
Context {T : Type}.
Implicit Types (array target rest : list T).

Lemma snoc_decompose array n :
  length array = S n → ∃ front x, array = front ++ [x] ∧ length front = n.
Proof.
  destruct array as [|x front] using rev_ind; [done|].
  rewrite length_app. simpl. intros Hlen. exists front, x. split; [done|lia].
Qed.

Lemma swap_app_l array rest i j :
  i < length array → j < length array →
  swap (array ++ rest) i j = swap array i j ++ rest.
Proof.
  intros Hi Hj. unfold swap. rewrite !lookup_app_l by done.
  destruct (lookup_lt_is_Some_2 array i Hi) as [x ->].
  destruct (lookup_lt_is_Some_2 array j Hj) as [y ->].
  rewrite insert_app_l by done.
  rewrite insert_app_l by (by rewrite length_insert). done.
Qed.

(** After the swap, position [i] holds what was at [j]. *)
Lemma swap_lookup_i array i j y :
  i < length array → array !! j = Some y → swap array i j !! i = Some y.
Proof.
  intros Hi Hj. unfold swap.
  destruct (lookup_lt_is_Some_2 array i Hi) as [x Hx]. rewrite Hx, Hj.
  destruct (decide (i = j)) as [->|Hne].
  - rewrite list_lookup_insert_eq by (by rewrite length_insert). congruence.
  - rewrite list_lookup_insert_ne by done.
    by rewrite list_lookup_insert_eq.
Qed.

Lemma shuffleFrom_draws i array g k :
  (shuffleFrom i array g).2 k = g (k + i).
Proof.
  revert array g k. induction i as [|i IH]; intros array g k; simpl.
  - by rewrite Nat.add_0_r.
  - unfold mbind, rand_bind, randomBelow, draw, mret, rand_ret. simpl.
    rewrite IH. f_equal. lia.
Qed.

(** One turn of the loop. *)
Lemma shuffleFrom_S i array g :
  shuffleFrom (S i) array g =
  shuffleFrom i (swap array (S i) (g 0 `mod` (S i + 1))) (λ k, g (S k)).
Proof. reflexivity. Qed.

Lemma shuffleFrom_reaches n array target rest :
  length array = S n → array ≡ₚ target →
  ∃ g, (shuffleFrom n (array ++ rest) g).1 = target ++ rest.
Proof.
  revert array target rest. induction n as [|n IH]; intros array target rest Hlen Hperm.
  - exists (λ _, 0). simpl.
    destruct array as [|x [|??]]; simplify_eq/=.
    by apply Permutation_singleton_l in Hperm as <-.
  - assert (Hlen' : length target = S (S n)) by (by rewrite <- Hperm).
    destruct (snoc_decompose target _ Hlen') as (target' & y & -> & Hlt).
    assert (Hy : y ∈ array).
    { rewrite Hperm. apply elem_of_app. right. by left. }
    apply list_elem_of_lookup in Hy as [j Hj].
    pose proof (lookup_lt_Some _ _ _ Hj) as Hjlt.
    assert (Hlast : swap array (S n) j !! S n = Some y).
    { apply swap_lookup_i; [lia|done]. }
    assert (Hslen : length (swap array (S n) j) = S (S n)).
    { by rewrite (Permutation_length (swap_Permutation array (S n) j)). }
    destruct (snoc_decompose _ _ Hslen) as (front & z & Hfront & Hfl).
    assert (z = y) as ->.
    { rewrite Hfront in Hlast.
      rewrite lookup_app_r, Hfl, Nat.sub_diag in Hlast by lia. by simplify_eq/=. }
    assert (Hfp : front ≡ₚ target').
    { apply (Permutation_app_inv_r [y]).
      by rewrite <- Hfront, swap_Permutation. }
    destruct (IH front target' (y :: rest) Hfl Hfp) as [g Hg].
    exists (consDraw j g). rewrite shuffleFrom_S.
    change (consDraw j g 0) with j.
    change (λ k, consDraw j g (S k)) with g.
    rewrite Nat.mod_small by lia.
    rewrite swap_app_l by lia. rewrite Hfront, <- !app_assoc. exact Hg.
Qed.

End ShuffleReach.

(** X1. Whatever the draws, [shuffleArray] returns the letters it was given,
    each as often as before, and as many of them. *)
Theorem shuffleArray_permutes {T} (array : list T) (g : Rng) :
  (shuffleArray array g).1 ≡ₚ array ∧
  length (shuffleArray array g).1 = length array.
Proof.
  pose proof (shuffleArray_Permutation array g) as Hp. cbv beta in Hp.
  split; [done|by rewrite Hp].
Qed.

(** X2. Shuffling an array of [n] elements draws exactly [n - 1] random
    numbers: the draws that follow are those from position [n - 1] on. *)
Theorem shuffleArray_draws {T} (array : list T) (g : Rng) (k : nat) :
  (shuffleArray array g).2 k = g (k + (length array - 1)).
Proof. apply shuffleFrom_draws. Qed.

(** X3. The shuffle rules out no order: every rearrangement of the array
    is what [shuffleArray] returns for some draws. *)
Theorem shuffleArray_reaches_every_order {T} (array target : list T) :
  array ≡ₚ target → ∃ g, (shuffleArray array g).1 = target.
Proof.
  intros Hperm. unfold shuffleArray.
  destruct array as [|x array'] eqn:Ha.
  - apply Permutation_nil_l in Hperm as <-. by exists (λ _, 0).
  - rewrite <- Ha in *.
    assert (Hlen : length array = S (length array - 1)) by (rewrite Ha; simpl; lia).
    destruct (shuffleFrom_reaches _ array target [] Hlen Hperm) as [g Hg].
    exists g. by rewrite !app_nil_r in Hg.
Qed.

Lemma shuffleArray_reaches_every_order_witness :
  ∃ g, (shuffleArray ["A"; "B"] g).1 = ["B"; "A"].
Proof.
  apply (shuffleArray_reaches_every_order ["A"; "B"] ["B"; "A"]).
  apply perm_swap.
Defined.

(** ** More about [generateRound] *)

Section RoundMore.
Implicit Types (settings : Settings) (g : Rng).

Lemma lower_in_ALPHABET_LOWER m :
  m ∈ ALPHABET_UPPER → toLowerCase m ∈ ALPHABET_LOWER.
Proof.
  revert m. apply Forall_forall. apply (bool_decide_unpack _). by vm_compute.
Qed.

(** The fillers are letters of the pool that was shuffled. *)
Lemma chooseFillers_members settings :
  always (chooseFillers settings)
    (λ res, ∀ x, x ∈ res.1.2 ∨ x ∈ res.2 → x ∈ fullLetterPool settings).
Proof.
  unfold chooseFillers.
  apply (always_bind _ _ (λ k, k < 26)); [by apply randomBelow_lt; simpl; lia|].
  intros k Hk.
  eapply always_bind; [apply shuffleArray_Permutation|].
  intros shuffled Hperm. cbv beta in Hperm.
  pose proof (nth_ALPHABET_UPPER k Hk) as Hm.
  destruct (fillerPool_spec _ _ _ Hm Hperm) as (Hnd & _ & _).
  destruct (collectFillers_spec shuffled [] {[nth k ALPHABET_UPPER EmptyString]})
    as (_ & _ & Hfrom & _).
  { apply NoDup_nil_2. }
  { intros x Hx. by apply elem_of_nil in Hx. }
  set (pool := collectFillers shuffled [] {[nth k ALPHABET_UPPER EmptyString]}) in *.
  set (limit := lettersPerCircle settings - 1).
  assert (Hndp : NoDup pool) by (by eapply NoDup_fmap_1).
  rewrite (fillCircle_spec limit pool [] 0) by done.
  simpl. rewrite Nat.sub_0_r.
  rewrite fillCircle_spec.
  2:{ simpl. eapply sublist_NoDup; [exact Hndp|apply sublist_drop]. }
  simpl. apply always_ret. simpl.
  assert (Hpool : ∀ x, x ∈ pool → x ∈ fullLetterPool settings).
  { intros x Hx. destruct (Hfrom x Hx) as [Hn|[Hs _]]; [by apply elem_of_nil in Hn|].
    unfold fullLetterPool. by rewrite <- Hperm. }
  intros x [Hx|Hx]; apply Hpool.
  - by eapply in_take.
  - by eapply in_take_drop.
Qed.

(** The concept is the letter at the index of the first draw. *)
Lemma chooseFillers_concept settings g :
  (chooseFillers settings g).1.1.1 = nth (g 0 `mod` 26) ALPHABET_UPPER EmptyString.
Proof.
  cbv beta iota zeta delta
    [chooseFillers mbind rand_bind randomBelow draw mret rand_ret].
  destruct (shuffleArray (T:=string) _ _) as [shuffled g1].
  destruct (fillCircle _ _ _ 0) as [c1 idx].
  destruct (fillCircle _ _ _ idx) as [c2 idx']. reflexivity.
Qed.

(** One run of [generateRoundWith], with the form of the concept put in
    each circle. *)
Lemma generateRoundWith_run_forms settings g :
  ∃ m c1 c2 m1 m2,
    (chooseFillers settings g).1 = (m, c1, c2) ∧
    matchingLetter (generateRoundWith settings g).1 = m ∧
    (if useLowercase settings
     then (m1 = toUpperCase m ∨ m1 = toLowerCase m) ∧
          (m2 = toUpperCase m ∨ m2 = toLowerCase m)
     else m1 = m ∧ m2 = m) ∧
    letters1 (generateRoundWith settings g).1 ≡ₚ c1 ++ [m1] ∧
    letters2 (generateRoundWith settings g).1 ≡ₚ c2 ++ [m2].
Proof.
  unfold generateRoundWith, mbind, rand_bind.
  destruct (chooseFillers settings g) as [[[m c1] c2] g1].
  assert (Hform : ∀ g', if useLowercase settings
            then (getMatchingLetterWithCase settings m g').1 = toUpperCase m ∨
                 (getMatchingLetterWithCase settings m g').1 = toLowerCase m
            else (getMatchingLetterWithCase settings m g').1 = m).
  { intros g'. unfold getMatchingLetterWithCase.
    destruct (useLowercase settings); [|done].
    unfold mbind, rand_bind, randomAboveHalf, draw, mret, rand_ret. simpl.
    destruct (Nat.odd (g' 0)); auto. }
  pose proof (Hform g1) as Hm1.
  destruct (getMatchingLetterWithCase settings m g1) as [m1 g2].
  pose proof (shuffleArray_Permutation (c1 ++ [m1]) g2) as Hl1.
  destruct (shuffleArray (c1 ++ [m1]) g2) as [l1 g3].
  pose proof (Hform g3) as Hm2.
  destruct (getMatchingLetterWithCase settings m g3) as [m2 g4].
  pose proof (shuffleArray_Permutation (c2 ++ [m2]) g4) as Hl2.
  destruct (shuffleArray (c2 ++ [m2]) g4) as [l2 g5].
  exists m, c1, c2, m1, m2. simpl in *.
  destruct (useLowercase settings); by split_and!.
Qed.

End RoundMore.

(** X4. In every generated round, for every configuration, the letters of a
    circle are pairwise different strings, so the [key={letter}] that
    [Circle] gives each [Letter] is unique within the circle. *)
Theorem circle_letters_distinct (settings : Settings) (g : Rng) :
  NoDup (letters1 (generateRoundWith settings g).1) ∧
  NoDup (letters2 (generateRoundWith settings g).1).
Proof.
  destruct (generateRoundWith_shape settings g)
    as (pool & m1 & m2 & _ & _ & Hnd & Hne & _ & Hm1 & Hm2 & Hl1 & Hl2).
  split; apply (NoDup_fmap_1 toUpperCase).
  - eapply circle_NoDup; [|intros x Hx; apply Hne; by eapply in_take|exact Hm1|exact Hl1].
    rewrite fmap_take. eapply sublist_NoDup; [exact Hnd|apply sublist_take].
  - eapply circle_NoDup;
      [|intros x Hx; apply Hne; by eapply in_take_drop|exact Hm2|exact Hl2].
    rewrite fmap_take, fmap_drop. eapply sublist_NoDup; [exact Hnd|].
    etrans; [apply sublist_take|apply sublist_drop].
Qed.

(** X5. A configuration without lowercase variants only ever shows uppercase
    letters, and the concept letter itself is in both circles. *)
Theorem uppercase_tiers_show_uppercase (settings : Settings) (g : Rng) :
  useLowercase settings = false →
  let r := (generateRoundWith settings g).1 in
  letters1 r ⊆ ALPHABET_UPPER ∧ letters2 r ⊆ ALPHABET_UPPER ∧
  matchingLetter r ∈ letters1 r ∧ matchingLetter r ∈ letters2 r.
Proof.
  intros Hlow r. subst r.
  destruct (generateRoundWith_run_forms settings g)
    as (m & c1 & c2 & m1 & m2 & Hc & Hm & Hforms & Hl1 & Hl2).
  rewrite Hlow in Hforms. destruct Hforms as [-> ->].
  pose proof (chooseFillers_members settings g) as Hmem.
  pose proof (chooseFillers_spec settings g) as Hspec.
  rewrite Hc in Hmem, Hspec. simpl in Hmem.
  destruct Hspec as (pool & Hin & _).
  unfold fullLetterPool in Hmem. rewrite Hlow in Hmem.
  rewrite Hm. split_and!.
  - intros x Hx. rewrite Hl1 in Hx. apply elem_of_app in Hx as [Hx|Hx]; [by auto|].
    by apply list_elem_of_singleton in Hx as ->.
  - intros x Hx. rewrite Hl2 in Hx. apply elem_of_app in Hx as [Hx|Hx]; [by auto|].
    by apply list_elem_of_singleton in Hx as ->.
  - rewrite Hl1. apply elem_of_app. right. by left.
  - rewrite Hl2. apply elem_of_app. right. by left.
Qed.

Lemma uppercase_tiers_show_uppercase_witness :
  letters1 (generateRoundWith (DIFFICULTY_SETTINGS medium) (λ _, 0)).1
    ⊆ ALPHABET_UPPER.
Proof.
  apply (uppercase_tiers_show_uppercase (DIFFICULTY_SETTINGS medium) (λ _, 0)).
  reflexivity.
Defined.

(** X6. Every letter of a generated round is one of the letters of the full
    pool of its configuration, and each circle holds the concept letter or
    its lowercase form. *)
Theorem round_letters_from_pool (settings : Settings) (g : Rng) :
  let r := (generateRoundWith settings g).1 in
  letters1 r ⊆ fullLetterPool settings ∧
  letters2 r ⊆ fullLetterPool settings ∧
  (matchingLetter r ∈ letters1 r ∨ toLowerCase (matchingLetter r) ∈ letters1 r) ∧
  (matchingLetter r ∈ letters2 r ∨ toLowerCase (matchingLetter r) ∈ letters2 r).
Proof.
  intros r. subst r.
  destruct (generateRoundWith_run_forms settings g)
    as (m & c1 & c2 & m1 & m2 & Hc & Hm & Hforms & Hl1 & Hl2).
  pose proof (chooseFillers_members settings g) as Hmem.
  pose proof (chooseFillers_spec settings g) as Hspec.
  rewrite Hc in Hmem, Hspec. simpl in Hmem.
  destruct Hspec as (pool & Hin & _).
  rewrite Hm.
  assert (Hup : toUpperCase m = m) by (by apply upper_of_upper).
  assert (Hpool : ∀ mi, mi = m ∨ mi = toLowerCase m → mi ∈ fullLetterPool settings →
            ∀ c circle, (∀ x, x ∈ c → x ∈ fullLetterPool settings) →
            circle ≡ₚ c ++ [mi] →
            circle ⊆ fullLetterPool settings ∧ (m ∈ circle ∨ toLowerCase m ∈ circle)).
  { intros mi Hmi Hmip c circle Hcp Hcirc. split.
    - intros x Hx. rewrite Hcirc in Hx. apply elem_of_app in Hx as [Hx|Hx]; [by auto|].
      by apply list_elem_of_singleton in Hx as ->.
    - assert (mi ∈ circle) by (rewrite Hcirc; apply elem_of_app; right; by left).
      destruct Hmi as [<-|<-]; auto. }
  assert (Hforms' : (m1 = m ∨ m1 = toLowerCase m) ∧ (m2 = m ∨ m2 = toLowerCase m) ∧
                    m1 ∈ fullLetterPool settings ∧ m2 ∈ fullLetterPool settings).
  { unfold fullLetterPool. destruct (useLowercase settings).
    - rewrite Hup in Hforms. destruct Hforms as [H1 H2].
      split_and!; [done|done| |].
      + destruct H1 as [->| ->]; apply elem_of_app;
          [by left|right; by apply lower_in_ALPHABET_LOWER].
      + destruct H2 as [->| ->]; apply elem_of_app;
          [by left|right; by apply lower_in_ALPHABET_LOWER].
    - destruct Hforms as [-> ->]. by split_and!; [left|left| |]. }
  destruct Hforms' as (F1 & F2 & P1 & P2).
  destruct (Hpool m1 F1 P1 c1 _ (λ x Hx, Hmem x (or_introl Hx)) Hl1) as [? ?].
  destruct (Hpool m2 F2 P2 c2 _ (λ x Hx, Hmem x (or_intror Hx)) Hl2) as [? ?].
  by split_and!.
Qed.

(** X7. The concept of a round is always one of the 26 uppercase letters,
    and each of them is the concept for some draws. *)
Theorem every_concept_possible (settings : Settings) (m : string) :
  m ∈ ALPHABET_UPPER ↔ ∃ g, matchingLetter (generateRoundWith settings g).1 = m.
Proof.
  split.
  - intros Hm. apply list_elem_of_lookup in Hm as [k Hk].
    pose proof (lookup_lt_Some _ _ _ Hk) as Hlt. rewrite length_ALPHABET_UPPER in Hlt.
    exists (λ _, k).
    destruct (generateRoundWith_run settings (λ _, k))
      as (m' & c1 & c2 & m1 & m2 & Hc & -> & _).
    pose proof (chooseFillers_concept settings (λ _, k)) as Hcon.
    rewrite Hc in Hcon. cbn [fst] in Hcon. rewrite Hcon, Nat.mod_small by done.
    by apply nth_lookup_Some.
  - intros [g <-]. apply generateRoundWith_concept.
Qed.

(** X8. The size of the circles for every configuration, with or without
    lowercase variants: the first circle has [min (n - 1) 25] fillers and the
    second what is left of the 25 candidates, up to [n - 1], each with one
    letter of the concept added. *)
Theorem circle_sizes_any_configuration (settings : Settings) (g : Rng) :
  let n := lettersPerCircle settings in
  let r := (generateRoundWith settings g).1 in
  length (letters1 r) = (n - 1) `min` 25 + 1 ∧
  length (letters2 r) = (n - 1) `min` (25 - (n - 1)) + 1.
Proof.
  intros n r. subst n r.
  destruct (generateRoundWith_shape settings g)
    as (pool & m1 & m2 & _ & _ & _ & _ & Hlen & _ & _ & Hl1 & Hl2).
  rewrite Hl1, Hl2, !length_app, !length_take, !length_drop, Hlen. simpl. lia.
Qed.

(** ** More about the session controller *)

Section TimersInPlace.

Lemma popEarliest_Permutation q p others :
  popEarliest q = Some (p, others) → q ≡ₚ p :: others.
Proof.
  revert p others. induction q as [|p0 q IH]; intros p others; simpl; [done|].
  destruct (popEarliest q) as [[p' others']|].
  - case_match; intros [= <- <-]; [|done].
    rewrite (IH p' others' eq_refl). apply Permutation_swap.
  - by intros [= <- <-].
Qed.

Lemma userStep_timersInPlace t a w w' :
  timersInPlace w → userStep t a w = Some w' → timersInPlace w'.
Proof.
  intros (HI1 & HI2 & HI3 & HI4). unfold userStep.
  destruct (_ && offered (session w) a) eqn:Hg; [|done].
  apply andb_prop in Hg as [_ Hoff].
  destruct a as [level| |letter]; simpl in *.
  - intros [= <-]. unfold timersInPlace. simpl. split_and!.
    + intros due Hin. apply elem_of_app in Hin as [Hin|Hin]; [by eapply HI1|].
      by apply list_elem_of_singleton in Hin.
    + intros Hw. destruct (HI2 Hw) as [due Hin]. exists due. apply elem_of_app. by left.
    + done.
    + intros _ _. exists (t + 100), level. apply elem_of_app. right. by left.
  - intros [= <-]. unfold timersInPlace. simpl. rewrite app_nil_r. split_and!.
    + done.
    + done.
    + done.
    + by intros [? ?].
  - destruct (difficulty (session w)) as [d|] eqn:Hd; [|done].
    destruct (roundData (session w)) as [rd|] eqn:Hr; [|done].
    unfold handleLetterClick. rewrite Hr.
    destruct (feedback (session w)) eqn:Hf;
      [destruct (decide (toUpperCase letter = _))|]; simpl; intros [= <-];
      unfold timersInPlace; simpl;
      rewrite ?Hd, ?Hr, ?Hf, ?app_nil_r.
    + split_and!.
      * intros due Hin. apply elem_of_app in Hin as [Hin|Hin]; [by eapply HI1|].
        by apply list_elem_of_singleton in Hin.
      * intros Hw. destruct (HI2 Hw) as [due Hin]. exists due. apply elem_of_app. by left.
      * intros _. exists (t + 1200), d. apply elem_of_app. right. by left.
      * done.
    + split_and!.
      * intros due Hin. apply elem_of_app in Hin as [Hin|Hin]; [by eapply HI1|].
        by apply list_elem_of_singleton in Hin.
      * intros _. exists (t + 500). apply elem_of_app. right. by left.
      * done.
      * done.
    + split_and!; try done; intros _; by apply HI3.
Qed.

Lemma fireStep_timersInPlace w w' :
  timersInPlace w → fireStep w = Some w' → timersInPlace w'.
Proof.
  intros (HI1 & HI2 & HI3 & HI4). unfold fireStep.
  destruct (popEarliest (pending w)) as [[[due tm] others]|] eqn:Hpop; [|done].
  apply popEarliest_Permutation in Hpop.
  assert (Hkeep : ∀ p, p ∈ pending w → p.2 ≠ tm → p ∈ others).
  { intros p Hp Hne. rewrite Hpop in Hp. apply elem_of_cons in Hp as [->|Hp]; done. }
  assert (Hsub : ∀ p, p ∈ others → p ∈ pending w).
  { intros p Hp. rewrite Hpop. by right. }
  destruct tm as [level|[d|]|]; simpl.
  - unfold mbind, rand_bind. destruct (generateRound level (rng w)) as [r g'].
    simpl. intros [= <-]. unfold timersInPlace. simpl. rewrite app_nil_r. split_and!.
    + intros due' Hin. by eapply HI1, Hsub.
    + intros Hw. destruct (HI2 Hw) as [due' Hin]. exists due'. by apply Hkeep.
    + intros Hf. destruct (HI3 Hf) as (due' & d & Hin). exists due', d. by apply Hkeep.
    + done.
  - intros [= <-]. unfold timersInPlace. simpl. split_and!.
    + intros due' Hin. apply elem_of_app in Hin as [Hin|Hin]; [by eapply HI1, Hsub|].
      by apply list_elem_of_singleton in Hin.
    + intros Hw. destruct (HI2 Hw) as [due' Hin]. exists due'.
      apply elem_of_app. left. by apply Hkeep.
    + done.
    + intros _ _. eexists _, d. apply elem_of_app. right. by left.
  - destruct (HI1 due). rewrite Hpop. by left.
  - intros [= <-]. unfold timersInPlace. simpl. rewrite app_nil_r. split_and!.
    + intros due' Hin. by eapply HI1, Hsub.
    + done.
    + intros Hf. destruct (HI3 Hf) as (due' & d & Hin). exists due', d. by apply Hkeep.
    + intros Hd Hr. destruct (HI4 Hd Hr) as (due' & level & Hin).
      exists due', level. by apply Hkeep.
Qed.

Lemma run_timersInPlace events w w' :
  timersInPlace w → run events w = Some w' → timersInPlace w'.
Proof.
  revert w. induction events as [|e events IH]; intros w Hw; simpl.
  - by intros [= <-].
  - destruct (step e w) as [w1|] eqn:He; [|done].
    apply IH. destruct e; simpl in He.
    + by eapply userStep_timersInPlace.
    + by eapply fireStep_timersInPlace.
Qed.

Lemma Reachable_timersInPlace w : Reachable w → timersInPlace w.
Proof.
  intros (g & events & Hrun). eapply run_timersInPlace; [|exact Hrun].
  unfold timersInPlace. simpl. split_and!; try done.
  intros due Hin. by apply elem_of_nil in Hin.
Qed.

End TimersInPlace.

Section GeneratedRounds.

Lemma handle_roundGenerated a s :
  roundGenerated s → roundGenerated (handle a s).1.
Proof.
  intros Hs rd. destruct a as [level| |letter]; simpl; [done|done|].
  unfold handleLetterClick.
  destruct (feedback s), (roundData s) as [rd0|] eqn:Hr;
    [destruct (decide (toUpperCase letter = _))|..]; simpl; rewrite ?Hr; try done;
    intros [= <-]; by apply Hs.
Qed.

Lemma fireTimer_roundGenerated tm s g :
  roundGenerated s → roundGenerated (fireTimer tm s g).1.1.
Proof.
  intros Hs rd. destruct tm as [level|[d|]|]; simpl; try done; try apply Hs.
  unfold mbind, rand_bind.
  destruct (generateRound level g) as [r g'] eqn:Hgen.
  simpl. intros [= <-]. exists level, g. by rewrite Hgen.
Qed.

Lemma run_roundGenerated events w w' :
  roundGenerated (session w) → run events w = Some w' → roundGenerated (session w').
Proof.
  revert w. induction events as [|e events IH]; intros w Hw; simpl.
  - by intros [= <-].
  - destruct (step e w) as [w1|] eqn:He; [|done].
    apply IH. destruct e as [t a|]; simpl in He.
    + unfold userStep in He. case_match; [|done].
      pose proof (handle_roundGenerated a _ Hw) as Ha.
      destruct (handle a (session w)) as [s' timers]. by injection He as <-.
    + unfold fireStep in He.
      destruct (popEarliest (pending w)) as [[[due tm] others]|]; [|done].
      pose proof (fireTimer_roundGenerated tm _ (rng w) Hw) as Hf.
      destruct (fireTimer tm (session w) (rng w)) as [[s' timers] g'].
      by injection He as <-.
Qed.

(** A generated round in one of the shipped tiers: full circles, one letter
    of the concept in each. *)
Lemma generateRound_full level g :
  let r := (generateRound level g).1 in
  let n := lettersPerCircle (DIFFICULTY_SETTINGS level) in
  length (letters1 r) = n ∧ length (letters2 r) = n ∧
  length (filter (λ x, toUpperCase x = matchingLetter r) (letters1 r)) = 1 ∧
  length (filter (λ x, toUpperCase x = matchingLetter r) (letters2 r)) = 1 ∧
  matchingLetter r ∈ ALPHABET_UPPER.
Proof.
  intros r n. subst r n. unfold generateRound.
  destruct (generateRoundWith_shape (DIFFICULTY_SETTINGS level) g)
    as (pool & m1 & m2 & _ & Hin & _ & Hne & Hlen & Hm1 & Hm2 & Hl1 & Hl2).
  split_and!; [| | | |done].
  - rewrite Hl1, length_app, length_take, Hlen. destruct level; simpl; lia.
  - rewrite Hl2, length_app, length_take, length_drop, Hlen. destruct level; simpl; lia.
  - eapply circle_one_match; [|exact Hm1|exact Hl1].
    intros x Hx. apply Hne. by eapply in_take.
  - eapply circle_one_match; [|exact Hm2|exact Hl2].
    intros x Hx. apply Hne. by eapply in_take_drop.
Qed.

Lemma filter_one_member {A} (P : A → Prop) `{∀ x, Decision (P x)} (l : list A) :
  length (filter P l) = 1 → ∃ x, x ∈ l ∧ P x.
Proof.
  intros Hlen. destruct (filter P l) as [|x l'] eqn:Hf; [done|].
  assert (Hx : x ∈ filter P l) by (rewrite Hf; by left).
  apply list_elem_of_filter in Hx as [? ?]. eauto.
Qed.

Lemma fireTimer_keeps tm s g :
  difficulty (fireTimer tm s g).1.1 = difficulty s ∧
  score (fireTimer tm s g).1.1 = score s.
Proof.
  destruct tm as [level|[d|]|]; simpl; try done.
  unfold mbind, rand_bind. by destruct (generateRound level g).
Qed.

Lemma handleLetterClick_keeps letter s :
  difficulty (handleLetterClick letter s).1.2 = difficulty s ∧
  score s ≤ score (handleLetterClick letter s).1.2 ≤ score s + 1.
Proof.
  unfold handleLetterClick.
  destruct (feedback s), (roundData s);
    [destruct (decide (toUpperCase letter = _))|..]; simpl; split; lia || done.
Qed.

Lemma step_noReset e w w' :
  noReset e = true → step e w = Some w' →
  difficulty (session w') = difficulty (session w) ∧
  score (session w) ≤ score (session w') ≤
    score (session w) + (if isClick e then 1 else 0).
Proof.
  destruct e as [t [level| |letter]|]; simpl; try done; intros _.
  - unfold userStep. case_match; [|done]. simpl.
    pose proof (handleLetterClick_keeps letter (session w)) as Hk.
    destruct (handleLetterClick letter (session w)) as [[b s'] timers].
    simpl in *. by intros [= <-].
  - unfold fireStep.
    destruct (popEarliest (pending w)) as [[[due tm] others]|]; [|done].
    pose proof (fireTimer_keeps tm (session w) (rng w)) as [Hd Hs].
    destruct (fireTimer tm (session w) (rng w)) as [[s' timers] g'].
    simpl in *. intros [= <-]. simpl. split; [done|lia].
Qed.

End GeneratedRounds.

(** X9. The stars are between 1 and 5, and a round with more wrong guesses
    never earns more stars than one with fewer. *)
Theorem starsToShow_range (fewer more : nat) :
  fewer ≤ more →
  (1 ≤ starsToShow more ≤ starsToShow fewer)%Z ∧ (starsToShow fewer ≤ 5)%Z.
Proof. unfold starsToShow. lia. Qed.

Lemma starsToShow_range_witness :
  (1 ≤ starsToShow 4 ≤ starsToShow 2)%Z ∧ (starsToShow 2 ≤ 5)%Z.
Proof. apply (starsToShow_range 2 4). lia. Defined.

(** X10. From the menu, with no timer pending, choosing a tier at time [t]
    and letting its timer fire gives, at [t + 100], a round generated for
    that tier with the score and the wrong-guess count at 0 and nothing left
    pending. *)
Theorem select_then_load (w : World) (t : nat) (level : Difficulty) :
  difficulty (session w) = None → pending w = [] → now w ≤ t →
  ∃ w', run [User t (SelectDifficulty level); Fire] w = Some w' ∧
        session w' =
          {| difficulty := Some level;
             roundData := Some (generateRound level (rng w)).1;
             score := 0; feedback := idle;
             wrongGuess := wrongGuess (session w);
             wrongGuessesInRound := 0 |} ∧
        now w' = t + 100 ∧ pending w' = [].
Proof.
  intros Hd Hp Hnow. simpl. unfold userStep.
  rewrite Hp. simpl. rewrite Hd.
  rewrite (proj2 (Nat.leb_le _ _) Hnow). simpl.
  unfold fireStep. simpl. unfold mbind, rand_bind.
  destruct (generateRound level (rng w)) as [r g']. simpl.
  eexists. split; [done|]. simpl. split_and!; [done|lia|done].
Qed.

Lemma select_then_load_witness :
  ∃ w', run [User 0 (SelectDifficulty hard); Fire] (initialWorld (λ _, 0)) = Some w' ∧
        difficulty (session w') = Some hard ∧ now w' = 100.
Proof.
  destruct (select_then_load (initialWorld (λ _, 0)) 0 hard)
    as (w' & Hrun & Hs & Hn & _); [reflexivity|reflexivity|simpl; lia|].
  exists w'. rewrite Hs. by split_and!.
Defined.

(** X11. With a round on screen and no timer pending, a click at time [t] on
    a letter of the concept, followed by the two timers it sets off, gives
    at [t + 1300] a fresh round of the same tier, the score one higher, the
    feedback idle and the wrong-guess count at 0. *)
Theorem match_then_next_round (w : World) (t : nat) (letter : string)
    (level : Difficulty) (rd : RoundData) :
  difficulty (session w) = Some level →
  roundData (session w) = Some rd →
  feedback (session w) = idle →
  pending w = [] → now w ≤ t →
  letter ∈ letters1 rd ++ letters2 rd →
  toUpperCase letter = toUpperCase (matchingLetter rd) →
  ∃ w', run [User t (LetterClick letter); Fire; Fire] w = Some w' ∧
        session w' =
          {| difficulty := Some level;
             roundData := Some (generateRound level (rng w)).1;
             score := score (session w) + 1; feedback := idle;
             wrongGuess := wrongGuess (session w);
             wrongGuessesInRound := 0 |} ∧
        now w' = t + 1300 ∧ pending w' = [].
Proof.
  intros Hd Hr Hf Hp Hnow Hin Hup. simpl. unfold userStep.
  rewrite Hp. simpl. rewrite Hd, Hr.
  rewrite (proj2 (Nat.leb_le _ _) Hnow), bool_decide_true by done. simpl.
  unfold handleLetterClick. rewrite Hf, Hr, decide_True by done.
  unfold fireStep. simpl. rewrite Hd. simpl.
  unfold mbind, rand_bind.
  destruct (generateRound level (rng w)) as [r g']. simpl.
  eexists. split; [done|]. simpl. split_and!; [|lia|done].
  unfold setRoundData, setWrongGuessesInRound, setFeedback, setScore. simpl.
  by rewrite Hd.
Qed.

Lemma match_then_next_round_witness :
  ∃ w', run [User 1000 (LetterClick "a"); Fire; Fire]
          (default (initialWorld (λ _, 0))
             (run [User 0 (SelectDifficulty hard); Fire] (initialWorld (λ _, 0))))
        = Some w' ∧
        score (session w') = 1 ∧ now w' = 2300.
Proof.
  destruct (match_then_next_round
              (default (initialWorld (λ _, 0))
                 (run [User 0 (SelectDifficulty hard); Fire] (initialWorld (λ _, 0))))
              1000 "a" hard
              {| letters1 := ["C"; "D"; "E"; "F"; "G"; "H"; "a"; "B"];
                 letters2 := ["J"; "K"; "L"; "M"; "N"; "O"; "a"; "I"];
                 matchingLetter := "A" |})
    as (w' & Hrun & Hs & Hn & _);
    [by vm_compute|by vm_compute|by vm_compute|by vm_compute|
     vm_compute; lia| |by vm_compute|].
  - apply (bool_decide_unpack _). by vm_compute.
  - exists w'. rewrite Hs. by split_and!.
Defined.

(** X12. No [startNewRound] the program ever schedules lacks a difficulty:
    a click reaches [handleLetterClick] only from the game screen, so the
    guard on the first line of [startNewRound] never stops a timer. *)
Theorem startNewRound_guard_never_fires (w : World) (due : nat) :
  Reachable w → (due, StartNewRound None) ∉ pending w.
Proof. intros Hw. by destruct (Reachable_timersInPlace w Hw) as (H1 & _). Qed.

Lemma startNewRound_guard_never_fires_witness :
  (2200, StartNewRound None) ∉ pending matchedWorld.
Proof.
  apply (startNewRound_guard_never_fires matchedWorld 2200).
  exists (λ _, 0), (playingEvents ++ [User 1000 (LetterClick "A")]). by vm_compute.
Defined.

(** X13. Whenever the correct overlay is up, a timer that runs
    [startNewRound] with a difficulty is pending: the overlay always ends,
    even after a return to the menu. *)
Theorem correct_overlay_has_timer (w : World) :
  Reachable w → feedback (session w) = correct →
  ∃ due d, (due, StartNewRound (Some d)) ∈ pending w.
Proof. intros Hw. by destruct (Reachable_timersInPlace w Hw) as (_ & _ & H3 & _). Qed.

Lemma correct_overlay_has_timer_witness :
  ∃ due d, (due, StartNewRound (Some d)) ∈ pending matchedWorld.
Proof.
  apply (correct_overlay_has_timer matchedWorld); [|reflexivity].
  exists (λ _, 0), (playingEvents ++ [User 1000 (LetterClick "A")]). by vm_compute.
Defined.

(** X14. Whenever the wrong mark is shown, a timer that clears it is
    pending. *)
Theorem wrong_mark_has_timer (w : World) :
  Reachable w → wrongGuess (session w) = true →
  ∃ due, (due, ClearWrongGuess) ∈ pending w.
Proof. intros Hw. by destruct (Reachable_timersInPlace w Hw) as (_ & H2 & _). Qed.

Lemma wrong_mark_has_timer_witness :
  ∃ due, (due, ClearWrongGuess) ∈
         pending (default playingWorld (userStep 1000 (LetterClick "B") playingWorld)).
Proof.
  apply (wrong_mark_has_timer
           (default playingWorld (userStep 1000 (LetterClick "B") playingWorld)));
    [|reflexivity].
  exists (λ _, 0), (playingEvents ++ [User 1000 (LetterClick "B")]). by vm_compute.
Defined.

(** X15. Whenever the game screen shows "Loading..." (a difficulty, no
    round), a timer that stores a round is pending. *)
Theorem loading_has_timer (w : World) :
  Reachable w →
  is_Some (difficulty (session w)) → roundData (session w) = None →
  ∃ due level, (due, SetRound level) ∈ pending w.
Proof. intros Hw. by destruct (Reachable_timersInPlace w Hw) as (_ & _ & _ & H4). Qed.

Lemma loading_has_timer_witness :
  ∃ due level,
    (due, SetRound level) ∈
    pending (default (initialWorld (λ _, 0))
               (userStep 0 (SelectDifficulty easy) (initialWorld (λ _, 0)))).
Proof.
  apply (loading_has_timer
           (default (initialWorld (λ _, 0))
              (userStep 0 (SelectDifficulty easy) (initialWorld (λ _, 0)))));
    [|by eexists|reflexivity].
  exists (λ _, 0), [User 0 (SelectDifficulty easy)]. by vm_compute.
Defined.

(** X16. As long as the player neither picks a tier nor returns to the menu,
    the difficulty stays what it is and the score never goes down; it grows
    by at most one per click, and timers alone leave it unchanged. *)
Theorem score_between_resets (events : list Event) (w w' : World) :
  forallb noReset events = true →
  run events w = Some w' →
  difficulty (session w') = difficulty (session w) ∧
  score (session w) ≤ score (session w') ≤
    score (session w) + length (filter isClick events).
Proof.
  revert w. induction events as [|e events IH]; intros w Hall; simpl.
  - intros [= <-]. split; [done|lia].
  - simpl in Hall. apply andb_prop in Hall as [He Hall].
    destruct (step e w) as [w1|] eqn:Hstep; [|done].
    intros Hrun. destruct (step_noReset e w w1 He Hstep) as [Hd Hs].
    destruct (IH w1 Hall Hrun) as [Hd' Hs'].
    split; [congruence|].
    rewrite filter_cons. destruct e as [t [level| |letter]|]; simpl in *; lia.
Qed.

Lemma score_between_resets_witness :
  score (session matchedWorld) ≤
  score (session (default matchedWorld (run [Fire; Fire] matchedWorld))) ≤
  score (session matchedWorld) + 0.
Proof.
  apply (score_between_resets [Fire; Fire] matchedWorld); [reflexivity|by vm_compute].
Defined.

(** X17. Every round that is ever on screen has the size of one of the
    three tiers in both circles and exactly one letter of the concept in
    each, so that each circle holds a letter whose click
    [handleLetterClick] accepts. *)
Theorem rounds_on_screen_are_winnable (w : World) (rd : RoundData) :
  Reachable w → roundData (session w) = Some rd →
  (∃ level, length (letters1 rd) = lettersPerCircle (DIFFICULTY_SETTINGS level) ∧
            length (letters2 rd) = lettersPerCircle (DIFFICULTY_SETTINGS level)) ∧
  length (filter (λ x, toUpperCase x = matchingLetter rd) (letters1 rd)) = 1 ∧
  length (filter (λ x, toUpperCase x = matchingLetter rd) (letters2 rd)) = 1 ∧
  (∃ x y, x ∈ letters1 rd ∧ y ∈ letters2 rd ∧
          toUpperCase x = toUpperCase (matchingLetter rd) ∧
          toUpperCase y = toUpperCase (matchingLetter rd)).
Proof.
  intros (g & events & Hrun) Hr.
  assert (Hgen : roundGenerated (session w)).
  { eapply run_roundGenerated; [|exact Hrun]. by intros rd'. }
  destruct (Hgen rd Hr) as (level & g' & ->).
  destruct (generateRound_full level g') as (H1 & H2 & H3 & H4 & Hm).
  split_and!; [by exists level|done|done|].
  destruct (filter_one_member _ _ H3) as (x & Hx & Hxm).
  destruct (filter_one_member _ _ H4) as (y & Hy & Hym).
  exists x, y. rewrite (upper_of_upper _ Hm). by split_and!.
Qed.

Lemma rounds_on_screen_are_winnable_witness :
  ∃ x y, x ∈ ["C"; "D"; "A"; "B"] ∧ y ∈ ["F"; "G"; "A"; "E"] ∧
         toUpperCase x = "A" ∧ toUpperCase y = "A".
Proof.
  apply (rounds_on_screen_are_winnable playingWorld
           {| letters1 := ["C"; "D"; "A"; "B"]; letters2 := ["F"; "G"; "A"; "E"];
              matchingLetter := "A" |}); [|reflexivity].
  exists (λ _, 0), playingEvents. by vm_compute.
Defined.

(** X18. A click on a [Letter] of the game. A letter that is shaking
    swallows the click: the session does not see it. Otherwise the letter
    starts shaking unless the click was a match: after a wrong guess, and
    also when [handleLetterClick] ignored the click because the correct
    overlay is up or no round is loaded, in which case no wrong guess is
    counted. *)
Theorem letter_click_shakes (s : Session) (rd : RoundData) (letter : string) :
  handleClick handleLetterClick true letter s = (true, s, [], []) ∧
  (feedback s ≠ idle ∨ roundData s = None →
     handleClick handleLetterClick false letter s = (true, s, [], [StopShaking])) ∧
  (feedback s = idle → roundData s = Some rd →
     if decide (toUpperCase letter = toUpperCase (matchingLetter rd))
     then handleClick handleLetterClick false letter s =
            (false, setFeedback correct (setScore (score s + 1) s),
             [StartNewRound (difficulty s)], [])
     else handleClick handleLetterClick false letter s =
            (true,
             setWrongGuessesInRound (wrongGuessesInRound s + 1) (setWrongGuess true s),
             [ClearWrongGuess], [StopShaking])).
Proof.
  split_and!.
  - done.
  - unfold handleClick, handleLetterClick. intros [Hf|Hr].
    + by destruct (feedback s).
    + rewrite Hr. by destruct (feedback s).
  - intros Hf Hr. unfold handleClick, handleLetterClick. rewrite Hf, Hr.
    by destruct (decide (toUpperCase letter = _)).
Qed.

Lemma letter_click_shakes_witness :
  handleClick handleLetterClick false "B" (session matchedWorld) =
    (true, session matchedWorld, [], [StopShaking]).
Proof.
  apply (letter_click_shakes (session matchedWorld)
           {| letters1 := []; letters2 := []; matchingLetter := "A" |} "B").
  left. by vm_compute.
Defined.

(** X19. The style of a letter: the rotation is a whole number of degrees
    from -20 to 19 (20 is never drawn), and the colour is always one of the
    six classes, never undefined. *)
Theorem randomStyle_in_range (g : Rng) :
  let style := (randomStyle g).1 in
  (-20 ≤ rotation style ≤ 19)%Z ∧
  ∃ c, colorClass style = Some c ∧ c ∈ colors.
Proof.
  intros style. subst style.
  cbv beta iota zeta delta [randomStyle mbind rand_bind randomBelow draw mret rand_ret].
  change (length colors) with 6. cbn [fst rotation colorClass].
  pose proof (Nat.mod_upper_bound (g 0) 40 ltac:(lia)) as H40.
  pose proof (Nat.mod_upper_bound (g 2) 6 ltac:(lia)) as H6.
  split; [lia|].
  destruct (lookup_lt_is_Some_2 colors (g 2 `mod` 6) H6) as [c Hc].
  exists c. split; [done|]. apply list_elem_of_lookup. eauto.
Qed.

(** ** Timers after a reset *)

Section Superseding.

Lemma popEarliest_None q : popEarliest q = None → q = [].
Proof.
  destruct q as [|p q]; [done|]. simpl.
  destruct (popEarliest q) as [[p' others]|]; [|done]. by case_match.
Qed.

(** The timer that fires is the first of those due earliest; the others
    stay in their order. *)
Lemma popEarliest_split q p others :
  popEarliest q = Some (p, others) →
  ∃ a1 a2, q = a1 ++ p :: a2 ∧ others = a1 ++ a2 ∧
           (∀ x, x ∈ a1 → p.1 < x.1) ∧ (∀ x, x ∈ a2 → p.1 ≤ x.1).
Proof.
  revert p others. induction q as [|p0 q IH]; intros p others; simpl; [done|].
  destruct (popEarliest q) as [[p' others']|] eqn:Hq.
  - destruct (IH p' others' eq_refl) as (b1 & b2 & -> & -> & Hb1 & Hb2).
    destruct (Nat.ltb_spec p'.1 p0.1) as [Hlt|Hge]; intros [= <- <-].
    + exists (p0 :: b1), b2. split_and!; [done|done| |done].
      intros x Hx. apply elem_of_cons in Hx as [->|Hx]; [done|by apply Hb1].
    + exists [], (b1 ++ p' :: b2). split_and!; [done|done| |].
      * intros x Hx. by apply elem_of_nil in Hx.
      * intros x Hx. apply elem_of_app in Hx as [Hx|Hx].
        -- specialize (Hb1 x Hx). lia.
        -- apply elem_of_cons in Hx as [->|Hx]; [done|].
           specialize (Hb2 x Hx). lia.
  - apply popEarliest_None in Hq as ->. intros [= <- <-].
    exists [], []. split_and!; [done|done| |]; intros x Hx; by apply elem_of_nil in Hx.
Qed.

(** Two ways of pointing at an element of one list. *)
Lemma app_cons_eq_cases {A} (l1 l2 a1 a2 : list A) (x y : A) :
  l1 ++ x :: l2 = a1 ++ y :: a2 →
  (a1 = l1 ∧ y = x ∧ a2 = l2) ∨
  (∃ k, a1 = l1 ++ x :: k ∧ l2 = k ++ y :: a2) ∨
  (∃ k, l1 = a1 ++ y :: k ∧ a2 = k ++ x :: l2).
Proof.
  revert a1. induction l1 as [|z l1 IH]; intros [|z' a1] Heq; simplify_eq/=.
  - by left.
  - right. left. by exists a1.
  - right. right. by exists l1.
  - destruct (IH a1 H0) as [(-> & -> & ->)|[(k & -> & ->)|(k & -> & ->)]].
    + by left.
    + right. left. by exists k.
    + right. right. by exists k.
Qed.

Lemma fireTimer_wrong_zero tm s g :
  wrongGuessesInRound s = 0 → wrongGuessesInRound (fireTimer tm s g).1.1 = 0.
Proof.
  intros Hs. destruct tm as [level|[d|]|]; simpl; try done.
  unfold mbind, rand_bind. by destruct (generateRound level g).
Qed.

(** A timer that is not the one of a correct match schedules nothing, keeps
    [feedback] and the wrong-guess count, and only a round-loading timer
    touches the round. *)
Lemma fireTimer_other tm s g :
  (∀ d, tm ≠ StartNewRound d) →
  (fireTimer tm s g).1.2 = [] ∧
  feedback (fireTimer tm s g).1.1 = feedback s ∧
  wrongGuessesInRound (fireTimer tm s g).1.1 = wrongGuessesInRound s ∧
  match tm with
  | SetRound level =>
      roundData (fireTimer tm s g).1.1 = Some (generateRound level g).1
  | _ => roundData (fireTimer tm s g).1.1 = roundData s
  end.
Proof.
  intros Hne. destruct tm as [level|d|]; simpl.
  - unfold mbind, rand_bind. by destruct (generateRound level g).
  - by destruct (Hne d).
  - done.
Qed.

Lemma fireStep_superseding level t w w' :
  superseding level t w → fireStep w = Some w' → superseding level t w'.
Proof.
  intros (Hd & Hs & Hf & Hw & Hnm & Hcase). unfold fireStep.
  destruct (popEarliest (pending w)) as [[[due tm] others]|] eqn:Hpop; [|done].
  destruct (popEarliest_split _ _ _ Hpop) as (a1 & a2 & Hq & -> & Ha1 & Ha2).
  assert (Htm : ∀ d, tm ≠ StartNewRound d).
  { intros d ->. apply (Hnm due d). rewrite Hq. apply elem_of_app. right. by left. }
  destruct (fireTimer_other tm (session w) (rng w) Htm) as (Hts & Hfb & Hwr & Hrd).
  destruct (fireTimer_keeps tm (session w) (rng w)) as [Hkd Hks].
  destruct (fireTimer tm (session w) (rng w)) as [[s' timers] g'].
  simpl in Hts, Hfb, Hwr, Hrd, Hkd, Hks. subst timers.
  intros [= <-]. unfold superseding. simpl. rewrite app_nil_r.
  assert (Hnm' : noMatchTimer (a1 ++ a2)).
  { intros due' d Hin. apply (Hnm due' d). rewrite Hq.
    apply elem_of_app in Hin as [Hin|Hin]; apply elem_of_app; [by left|right; by right]. }
  split_and!; [congruence|congruence|congruence|congruence|done|].
  destruct Hcase as [(l1 & l2 & Hp & Hl1 & Hl2)|[Hnl (g0 & Hround)]].
  - rewrite Hq in Hp. symmetry in Hp.
    destruct (app_cons_eq_cases _ _ _ _ _ _ Hp)
      as [(-> & [= -> ->] & ->)|[(k & -> & ->)|(k & -> & ->)]].
    + right. split.
      * intros due' l Hin. apply elem_of_app in Hin as [Hin|Hin]; [|by eapply Hl2].
        specialize (Ha1 _ Hin). specialize (Hl1 _ _ Hin). simpl in Ha1. lia.
      * eexists. exact Hrd.
    + left. exists l1, (k ++ a2). rewrite <- app_assoc. split_and!; [done|done|].
      intros due' l Hin. apply (Hl2 due' l).
      apply elem_of_app in Hin as [Hin|Hin]; apply elem_of_app; [by left|right; by right].
    + left. exists (a1 ++ k), l2. rewrite <- app_assoc. split_and!; [done| |done].
      intros due' l Hin. apply (Hl1 due' l).
      apply elem_of_app in Hin as [Hin|Hin]; apply elem_of_app; [by left|right; by right].
  - right. split.
    + intros due' l Hin. apply (Hnl due' l). rewrite Hq.
      apply elem_of_app in Hin as [Hin|Hin]; apply elem_of_app; [by left|right; by right].
    + exists g0. destruct tm as [l| |]; [|by rewrite Hrd..].
      destruct (Hnl due l). rewrite Hq. apply elem_of_app. right. by left.
Qed.

Lemma fires_superseding level t n w w' :
  superseding level t w → run (replicate n Fire) w = Some w' → superseding level t w'.
Proof.
  revert w. induction n as [|n IH]; intros w Hw; simpl.
  - by intros [= <-].
  - destruct (fireStep w) as [w1|] eqn:Hstep; [|done].
    apply IH. by eapply fireStep_superseding.
Qed.

(** Timers alone keep the menu: the difficulty, the score, and a wrong-guess
    count of 0. *)
Lemma fires_keep_menu n w w' :
  run (replicate n Fire) w = Some w' →
  difficulty (session w') = difficulty (session w) ∧
  score (session w') = score (session w) ∧
  (wrongGuessesInRound (session w) = 0 → wrongGuessesInRound (session w') = 0).
Proof.
  revert w. induction n as [|n IH]; intros w; simpl.
  - by intros [= <-].
  - destruct (fireStep w) as [w1|] eqn:Hstep; [|done].
    intros Hrun. destruct (IH w1 Hrun) as (Hd & Hs & Hw).
    unfold fireStep in Hstep.
    destruct (popEarliest (pending w)) as [[[due tm] others]|]; [|done].
    destruct (fireTimer_keeps tm (session w) (rng w)) as [Hkd Hks].
    pose proof (fireTimer_wrong_zero tm (session w) (rng w)) as Hkw.
    destruct (fireTimer tm (session w) (rng w)) as [[s' timers] g'].
    injection Hstep as <-. simpl in *.
    split_and!; [congruence|congruence|auto].
Qed.

(** Without a timer of a correct match, firing as many times as timers are
    pending fires them all. *)
Lemma fires_drain w :
  noMatchTimer (pending w) →
  ∃ w', run (replicate (length (pending w)) Fire) w = Some w' ∧ pending w' = [].
Proof.
  remember (length (pending w)) as n eqn:Hn. revert w Hn.
  induction n as [|n IH]; intros w Hn Hnm; simpl.
  - exists w. split; [done|]. by destruct (pending w).
  - unfold fireStep.
    destruct (popEarliest (pending w)) as [[[due tm] others]|] eqn:Hpop.
    2:{ apply popEarliest_None in Hpop. by rewrite Hpop in Hn. }
    pose proof (popEarliest_Permutation _ _ _ Hpop) as Hperm.
    assert (Htm : ∀ d, tm ≠ StartNewRound d).
    { intros d ->. apply (Hnm due d). rewrite Hperm. by left. }
    destruct (fireTimer_other tm (session w) (rng w) Htm) as (Hts & _).
    destruct (fireTimer tm (session w) (rng w)) as [[s' timers] g'].
    simpl in Hts. subst timers. rewrite app_nil_r.
    apply IH; simpl.
    + apply Permutation_length in Hperm. simpl in Hperm. lia.
    + intros due' d Hin. apply (Hnm due' d). rewrite Hperm. by right.
Qed.

Lemma userStep_loadDueSoon t a w w' :
  loadDueSoon w → userStep t a w = Some w' → loadDueSoon w'.
Proof.
  intros Hw. unfold userStep.
  destruct (now w <=? t) eqn:Hnow; [|done]. apply Nat.leb_le in Hnow.
  case_match; [|done].
  destruct (handle a (session w)) as [s' timers] eqn:Hh.
  intros [= <-]. intros due level. simpl. intros Hin.
  apply elem_of_app in Hin as [Hin|Hin].
  - specialize (Hw _ _ Hin). lia.
  - unfold schedule in Hin. apply list_elem_of_fmap in Hin as (tm & [= -> <-] & _).
    simpl. lia.
Qed.

Lemma fireStep_loadDueSoon w w' :
  loadDueSoon w → fireStep w = Some w' → loadDueSoon w'.
Proof.
  intros Hw. unfold fireStep.
  destruct (popEarliest (pending w)) as [[[due tm] others]|] eqn:Hpop; [|done].
  apply popEarliest_Permutation in Hpop.
  destruct (fireTimer tm (session w) (rng w)) as [[s' timers] g'].
  intros [= <-]. intros due' level. simpl. intros Hin.
  apply elem_of_app in Hin as [Hin|Hin].
  - assert (Hin' : (due', SetRound level) ∈ pending w) by (rewrite Hpop; by right).
    specialize (Hw _ _ Hin'). lia.
  - unfold schedule in Hin. apply list_elem_of_fmap in Hin as (tm' & [= -> <-] & _).
    simpl. lia.
Qed.

Lemma Reachable_loadDueSoon w : Reachable w → loadDueSoon w.
Proof.
  intros (g & events & Hrun).
  assert (Hinit : loadDueSoon (initialWorld g)).
  { intros due level Hin. by apply elem_of_nil in Hin. }
  revert Hrun Hinit. generalize (initialWorld g). clear g.
  induction events as [|e events IH]; intros w0; simpl.
  - by intros [= <-].
  - destruct (step e w0) as [w1|] eqn:He; [|done].
    intros Hrun Hw0. apply (IH w1 Hrun).
    destruct e; simpl in He.
    + by eapply userStep_loadDueSoon.
    + by eapply fireStep_loadDueSoon.
Qed.

(** What [handleSelectDifficulty] leaves behind. *)
Lemma select_superseding level t w w1 :
  loadDueSoon w → noMatchTimer (pending w) →
  userStep t (SelectDifficulty level) w = Some w1 →
  superseding level t w1.
Proof.
  intros Hsoon Hnm. unfold userStep.
  destruct (now w <=? t) eqn:Hnow; [|done]. apply Nat.leb_le in Hnow.
  case_match; [|done]. simpl. intros [= <-].
  unfold superseding. simpl. split_and!; try done.
  - intros due d Hin. apply elem_of_app in Hin as [Hin|Hin]; [by eapply Hnm|].
    by apply list_elem_of_singleton in Hin.
  - left. exists (pending w), []. split_and!; [done| |].
    + intros due l Hin. specialize (Hsoon _ _ Hin). lia.
    + intros due l Hin. by apply elem_of_nil in Hin.
Qed.

Lemma hastyMenuWorld_Reachable : Reachable hastyMenuWorld.
Proof.
  exists (λ _, 0), [User 0 (SelectDifficulty easy); User 30 BackToMenu].
  by vm_compute.
Qed.

End Superseding.

(** C8, amended. [handleBackToMenu] and [handleSelectDifficulty] cancel no
    timer: what was pending before them is pending after them. As long as
    no timer of a correct match is pending, the round-loading timers that
    are still pending are superseded. After [handleBackToMenu] the timers
    that fire leave the difficulty null and the score and the wrong-guess
    count at 0. After [handleSelectDifficulty] they leave the new
    difficulty, score 0, feedback idle and wrong-guess count 0, all pending
    timers do fire, and once no round-loading timer is pending the round is
    one generated for the newly selected tier. *)
Theorem resets_supersede_round_loading (w w1 w2 : World) (t n : nat) (a : Action) :
  Reachable w →
  noMatchTimer (pending w) →
  userStep t a w = Some w1 →
  run (replicate n Fire) w1 = Some w2 →
  pending w `prefix_of` pending w1 ∧
  (a = BackToMenu →
     difficulty (session w2) = None ∧ score (session w2) = 0 ∧
     wrongGuessesInRound (session w2) = 0) ∧
  (∀ level, a = SelectDifficulty level →
     difficulty (session w2) = Some level ∧ score (session w2) = 0 ∧
     feedback (session w2) = idle ∧ wrongGuessesInRound (session w2) = 0 ∧
     (noLoadTimer (pending w2) →
        ∃ g, roundData (session w2) = Some (generateRound level g).1) ∧
     (∃ w3, run (replicate (length (pending w1)) Fire) w1 = Some w3 ∧
            pending w3 = [])).
Proof.
  intros Hw Hnm Hstep Hrun. split_and!.
  - unfold userStep in Hstep. case_match; [|done].
    destruct (handle a (session w)) as [s' timers].
    injection Hstep as <-. simpl. by apply prefix_app_r.
  - intros ->. destruct (fires_keep_menu _ _ _ Hrun) as (Hd & Hs & Hwr).
    unfold userStep in Hstep. case_match; [|done].
    simpl in Hstep. injection Hstep as <-. simpl in *. by split_and!; auto.
  - intros level ->.
    pose proof (select_superseding level t w w1
                  (Reachable_loadDueSoon w Hw) Hnm Hstep) as Hsup.
    pose proof (fires_superseding level t n w1 w2 Hsup Hrun)
      as (Hd & Hs & Hf & Hwr & _ & Hcase).
    split_and!; [done|done|done|done| |].
    + intros Hnl. destruct Hcase as [(l1 & l2 & Hp & _)|[_ Hround]]; [|done].
      destruct (Hnl (t + 100) level). rewrite Hp. apply elem_of_app. right. by left.
    + apply fires_drain. by destruct Hsup as (_ & _ & _ & _ & Hnm1 & _).
Qed.

Lemma resets_supersede_round_loading_witness :
  pending hastyMenuWorld = [(100, SetRound easy)] ∧
  difficulty (session hastyLoadedWorld) = Some hard ∧
  ∃ g, roundData (session hastyLoadedWorld) = Some (generateRound hard g).1.
Proof.
  destruct (resets_supersede_round_loading hastyMenuWorld hastySelectWorld
              hastyLoadedWorld 50 2 (SelectDifficulty hard))
    as (_ & _ & Hsel).
  - exact hastyMenuWorld_Reachable.
  - intros due d Hin. apply list_elem_of_singleton in Hin. discriminate Hin.
  - by vm_compute.
  - by vm_compute.
  - destruct (Hsel hard eq_refl) as (Hd & _ & _ & _ & Hround & _).
    split_and!; [reflexivity|exact Hd|].
    apply Hround. intros due level Hin.
    assert (Hp : pending hastyLoadedWorld = []) by (by vm_compute).
    rewrite Hp in Hin. by apply elem_of_nil in Hin.
Defined.

(** X20. Wrong guesses add up, click by click, through the [Letter]s: when
    every clicked letter is of another concept, the wrong-guess count grows
    by exactly the number of clicks that hit a letter that was not shaking,
    a click on a shaking letter counts nothing, the score, the round, the
    difficulty and the idle feedback are as before, and a match on a letter
    that is not shaking then shows the stars of that count. *)
Theorem counted_wrong_guesses_accumulate (s : Session) (rd : RoundData)
    (clicks : list (bool * string)) (last : string) :
  feedback s = idle → roundData s = Some rd →
  Forall (λ click, toUpperCase click.2 ≠ toUpperCase (matchingLetter rd)) clicks →
  toUpperCase last = toUpperCase (matchingLetter rd) →
  let s' := clickLetters clicks s in
  let counted := length (filter (λ click, click.1 = false) clicks) in
  wrongGuessesInRound s' = wrongGuessesInRound s + counted ∧
  score s' = score s ∧ roundData s' = Some rd ∧
  difficulty s' = difficulty s ∧ feedback s' = idle ∧
  starsShown (handleClick handleLetterClick false last s').1.1.2 =
    Some (Z.max 1 (5 - Z.of_nat (wrongGuessesInRound s + counted))).
Proof.
  intros Hf Hr Hall Hlast. cbv zeta.
  assert (Hmain : wrongGuessesInRound (clickLetters clicks s)
                    = wrongGuessesInRound s
                      + length (filter (λ click, click.1 = false) clicks) ∧
                  score (clickLetters clicks s) = score s ∧
                  roundData (clickLetters clicks s) = Some rd ∧
                  difficulty (clickLetters clicks s) = difficulty s ∧
                  feedback (clickLetters clicks s) = idle).
  { revert s Hf Hr. induction Hall as [|[shaking x] clicks Hx Hall IH]; intros s Hf Hr.
    - simpl. split_and!; [lia|done..].
    - change (clickLetters ((shaking, x) :: clicks) s)
        with (clickLetters clicks (handleClick handleLetterClick shaking x s).1.1.2).
      destruct shaking.
      + rewrite filter_cons_False by done. simpl. by apply IH.
      + rewrite filter_cons_True by done.
        assert (Hstep : (handleClick handleLetterClick false x s).1.1.2 =
                  setWrongGuessesInRound (wrongGuessesInRound s + 1)
                    (setWrongGuess true s)).
        { unfold handleClick, handleLetterClick. rewrite Hf, Hr.
          simpl in Hx. by rewrite decide_False. }
        rewrite Hstep.
        destruct (IH (setWrongGuessesInRound (wrongGuessesInRound s + 1)
                        (setWrongGuess true s))) as (I1 & I2 & I3 & I4 & I5);
          [done|done|].
        rewrite I1, I2, I3, I4, I5. simpl. split_and!; [lia|done..]. }
  destruct Hmain as (M1 & M2 & M3 & M4 & M5). split_and!; try done.
  unfold handleClick, handleLetterClick. rewrite M5, M3, decide_True by done.
  unfold starsShown, starsToShow. simpl. by rewrite M1.
Qed.

Lemma counted_wrong_guesses_accumulate_witness :
  starsShown
    (handleClick handleLetterClick false "A"
       (clickLetters [(false, "B"); (true, "B"); (false, "C")]
          (session playingWorld))).1.1.2
  = Some 3%Z.
Proof.
  apply (counted_wrong_guesses_accumulate (session playingWorld)
           {| letters1 := ["C"; "D"; "A"; "B"]; letters2 := ["F"; "G"; "A"; "E"];
              matchingLetter := "A" |}
           [(false, "B"); (true, "B"); (false, "C")] "A");
    [reflexivity|reflexivity| |reflexivity].
  repeat constructor; by vm_compute.
Defined.

Example gen_easy_0 :
  fst (generateRound easy (λ _, 0)) =
  {| letters1 := ["C"; "D"; "A"; "B"]; letters2 := ["F"; "G"; "A"; "E"];
     matchingLetter := "A" |}.
Proof. vm_compute. reflexivity. Qed.
